(** * html2text: table sizing, the table column-width solver, the annotated
    control pipeline and the page block builder.

    Shallow embedding of [src/src/lib.rs] (size estimates, [RenderTable],
    [td_to_render_tree], [render_table_tree]) and [src/src/ansi_colours.rs]
    ([just_render], [custom_render], [try_build_block]).

    Conventions.
    - [usize] is [N].  A Rust panic (failed [assert!], [unwrap] of [None],
      out-of-range index, division by zero, arithmetic underflow as checked
      in a debug build) is [None] in an [option] result.
    - Sizes and minimum widths are character counts of an in-memory
      document; their additions are written on [N] without a wrap-around
      bound.  The [usize] arithmetic on the values the input sets directly
      ([colspan] attributes, the target width and the column widths made
      from it) carries the debug-build overflow check, and [vec![x; n]] its
      capacity check; running out of memory is not modelled.
    - The memo caches ([size_estimate : Option<SizeEstimate>]) are left out:
      the tree is not mutated after it is built, so a cached estimate is the
      estimate the function computes. *)

From Stdlib Require Import String Ascii List Arith NArith Lia Bool.
Import ListNotations.

Open Scope N_scope.

Notation "'let*' x ':=' e1 'in' e2" :=
  (match e1 with Some x => e2 | None => None end)
  (at level 200, x name, e1 at level 100, e2 at level 200).

Definition usize_max : N := 2 ^ 64 - 1.

(** [a - b] on [usize], with the debug-build underflow check. *)
Definition checked_sub (a b : N) : option N :=
  if b <=? a then Some (a - b) else None.

(** [a / b] on [usize]: division by zero panics. *)
Definition checked_div (a b : N) : option N :=
  if b =? 0 then None else Some (a / b).

(** [a + b] on [usize], with the debug-build overflow check. *)
Definition checked_add (a b : N) : option N :=
  if a + b <=? usize_max then Some (a + b) else None.

(** [a * b] on [usize], with the debug-build overflow check. *)
Definition checked_mul (a b : N) : option N :=
  if a * b <=? usize_max then Some (a * b) else None.

(** [v[i] = f(v[i])] on a [Vec]: an index out of range panics. *)
Fixpoint update_nth {A} (l : list A) (i : nat) (f : A -> option A)
  : option (list A) :=
  match l, i with
  | [], _ => None
  | x :: xs, O => let* y := f x in Some (y :: xs)
  | x :: xs, S i' => let* ys := update_nth xs i' f in Some (x :: ys)
  end.

Fixpoint fold_left_opt {A B} (f : A -> B -> option A) (l : list B) (a : A)
  : option A :=
  match l with
  | [] => Some a
  | b :: bs => let* a' := f a b in fold_left_opt f bs a'
  end.

(** [iter().sum()] *)
Definition sumN (l : list N) : N := fold_left N.add l 0.

(** [iter().sum::<usize>()], with the debug-build overflow check of each
    addition. *)
Definition checked_sum (l : list N) : option N := fold_left_opt checked_add l 0.

Fixpoint map_opt {A B} (f : A -> option B) (l : list A) : option (list B) :=
  match l with
  | [] => Some []
  | x :: xs => let* y := f x in let* ys := map_opt f xs in Some (y :: ys)
  end.

Definition isize_max : N := 2 ^ 63 - 1.

(** [vec![elem; n]] for elements of [elem_size] bytes: the allocation
    panics ("capacity overflow") when the [n * elem_size] bytes exceed
    [isize::MAX]. *)
Definition vec_from_elem {A} (elem_size : N) (elem : A) (n : N) : option (list A) :=
  if n * elem_size <=? isize_max then Some (repeat elem (N.to_nat n)) else None.

(** ** Size estimates ([lib.rs], lines 99-125) *)

Definition MIN_WIDTH : N := 5.

Record SizeEstimate := mkSizeEstimate { size : N; min_width : N }.

Definition SizeEstimate_default : SizeEstimate := mkSizeEstimate 0 0.

(** [size_of::<SizeEstimate>()]: two [usize] fields. *)
Definition SizeEstimate_bytes : N := 16.

Definition SizeEstimate_add (self other : SizeEstimate) : SizeEstimate :=
  mkSizeEstimate (size self + size other) (N.max (min_width self) (min_width other)).

(** ** The render tree ([lib.rs], lines 127-277) *)

Set Warnings "-register-all".

Inductive RenderNode : Type :=
| Text (t : string)
| Container (v : list RenderNode)
| Link (href : string) (v : list RenderNode)
| Em (v : list RenderNode)
| Code (v : list RenderNode)
| Img (t : string)
| Block (v : list RenderNode)
| Div (v : list RenderNode)
| Pre (t : string)
| BlockQuote (v : list RenderNode)
| Ul (v : list RenderNode)
| Ol (v : list RenderNode)
| Break
| Table (t : RenderTable)
with RenderTable : Type :=
| MkRenderTable (rows : list RenderTableRow) (num_columns : N)
with RenderTableRow : Type :=
| MkRenderTableRow (cells : list RenderTableCell)
with RenderTableCell : Type :=
| MkRenderTableCell (colspan : N) (content : list RenderNode).

Definition cells (r : RenderTableRow) : list RenderTableCell :=
  match r with MkRenderTableRow c => c end.

Definition cell_colspan (c : RenderTableCell) : N :=
  match c with MkRenderTableCell k _ => k end.

(** [RenderTableRow::num_cells]: the [usize] sum of the colspans. *)
Definition num_cells (r : RenderTableRow) : option N :=
  checked_sum (map cell_colspan (cells r)).

(** [iter().max()] *)
Definition max_opt (l : list N) : option N :=
  match l with
  | [] => None
  | x :: xs => Some (fold_left N.max xs x)
  end.

(** [RenderTable::new] *)
Definition RenderTable_new (rows : list RenderTableRow) : option RenderTable :=
  let* ns := map_opt num_cells rows in
  let num_columns := match max_opt ns with Some m => m | None => 0 end in
  Some (MkRenderTable rows num_columns).

(** [RenderTable::calc_size_estimate], given the estimate of every cell
    (row by row, [(cell.colspan, cell.get_size_estimate())]).  The column
    additions [colno + colnum] and [colno += cell.colspan] cannot overflow:
    while the indices are in range, [colno] stays within the length of
    [sizes], so an index out of range panics first.  The same holds in the
    loop of [render_table_tree] below. *)
Definition calc_size_estimate_cell (sizes_colno : list SizeEstimate * N)
    (cell : N * SizeEstimate) : option (list SizeEstimate * N) :=
  let (sizes, colno) := sizes_colno in
  let (colspan, cellsize) := cell in
  let* sizes' :=
    fold_left_opt
      (fun sizes colnum =>
         update_nth sizes (N.to_nat (colno + colnum))
           (fun s =>
              Some (mkSizeEstimate (size s + size cellsize / colspan)
                      (N.max (min_width s / colspan) (min_width cellsize)))))
      (map N.of_nat (seq 0 (N.to_nat colspan))) sizes in
  Some (sizes', colno + colspan).

Definition calc_size_estimate_row (sizes : list SizeEstimate)
    (row : list (N * SizeEstimate)) : option (list SizeEstimate) :=
  let* r := fold_left_opt calc_size_estimate_cell row (sizes, 0) in
  Some (fst r).

Definition calc_size_estimate (num_columns : N)
    (rows : list (list (N * SizeEstimate))) : option SizeEstimate :=
  let* sizes0 := vec_from_elem SizeEstimate_bytes SizeEstimate_default num_columns in
  let* sizes := fold_left_opt calc_size_estimate_row rows sizes0 in
  let size := sumN (map size sizes) in
  let* min_width := checked_sub (sumN (map min_width sizes) + num_columns) 1 in
  Some (mkSizeEstimate size min_width).

(** [RenderNode::get_size_estimate], [RenderTable::get_size_estimate] and
    [RenderTableCell::get_size_estimate]; [row_cell_estimates] lists a row's
    [(cell.colspan, cell.get_size_estimate())], in the order the loop of
    [calc_size_estimate] asks for them. *)
Fixpoint get_size_estimate (n : RenderNode) : option SizeEstimate :=
  match n with
  | Text t | Img t | Pre t => Some (mkSizeEstimate (N.of_nat (String.length t)) MIN_WIDTH)
  | Container v | Link _ v | Em v | Code v | Block v | Div v
  | BlockQuote v | Ul v | Ol v =>
      fold_left_opt
        (fun acc node => let* e := get_size_estimate node in Some (SizeEstimate_add acc e))
        v SizeEstimate_default
  | Break => Some (mkSizeEstimate 1 1)
  | Table t => table_get_size_estimate t
  end
with table_get_size_estimate (t : RenderTable) : option SizeEstimate :=
  match t with
  | MkRenderTable rows num_columns =>
      let* est := map_opt row_cell_estimates rows in
      calc_size_estimate num_columns est
  end
with row_cell_estimates (r : RenderTableRow) : option (list (N * SizeEstimate)) :=
  match r with
  | MkRenderTableRow cs =>
      map_opt (fun c => let* e := cell_get_size_estimate c in Some (cell_colspan c, e)) cs
  end
with cell_get_size_estimate (c : RenderTableCell) : option SizeEstimate :=
  match c with
  | MkRenderTableCell _ content =>
      fold_left_opt
        (fun acc node => let* e := get_size_estimate node in Some (SizeEstimate_add acc e))
        content SizeEstimate_default
  end.

(** ** The table layout solver ([render_table_tree], [lib.rs] lines 646-692) *)

(** The per-column estimates of [render_table_tree]: each cell's estimate
    is divided by its colspan and [add]ed to every column it spans. *)
Definition col_sizes_cell (sizes_colno : list SizeEstimate * N)
    (cell : N * SizeEstimate) : option (list SizeEstimate * N) :=
  let (col_sizes, colno) := sizes_colno in
  let (colspan, estimate0) := cell in
  let* esize := checked_div (size estimate0) colspan in
  let* emin := checked_div (min_width estimate0) colspan in
  let estimate := mkSizeEstimate esize emin in
  let* col_sizes' :=
    fold_left_opt
      (fun col_sizes i =>
         update_nth col_sizes (N.to_nat (colno + i))
           (fun c => Some (SizeEstimate_add c estimate)))
      (map N.of_nat (seq 0 (N.to_nat colspan))) col_sizes in
  Some (col_sizes', colno + colspan).

Definition col_sizes_row (col_sizes : list SizeEstimate)
    (row : list (N * SizeEstimate)) : option (list SizeEstimate) :=
  let* r := fold_left_opt col_sizes_cell row (col_sizes, 0) in
  Some (fst r).

Definition table_col_sizes (num_columns : N)
    (rows : list (list (N * SizeEstimate))) : option (list SizeEstimate) :=
  let* col_sizes0 := vec_from_elem SizeEstimate_bytes SizeEstimate_default num_columns in
  fold_left_opt col_sizes_row rows col_sizes0.

(** The initial widths: [0] for an empty column, else
    [max(sz.size * width / tot_size, sz.min_width)], where the product is
    on [usize] ([tot_size] is at least [sz.size], so not zero). *)
Definition initial_col_width (width tot_size : N) (sz : SizeEstimate) : option N :=
  if size sz =? 0 then Some 0
  else let* p := checked_mul (size sz) width in
       Some (N.max (p / tot_size) (min_width sz)).

Definition initial_col_widths (width : N) (col_sizes : list SizeEstimate) : option (list N) :=
  map_opt (initial_col_width width (sumN (map size col_sizes))) col_sizes.

(** The key of [max_by_key]:
    [(width.saturating_sub(col_sizes[colno].min_width), width, usize::MAX - colno)];
    the index into [col_sizes] panics out of range. *)
Definition col_key (col_sizes : list SizeEstimate) (colno : nat) (w : N)
  : option (N * N * N) :=
  let* sz := nth_error col_sizes colno in
  Some (w - min_width sz, w, usize_max - N.of_nat colno).

(** [Ord] on [(usize, usize, usize)]: lexicographic. *)
Definition key_leb (a b : N * N * N) : bool :=
  match a, b with
  | (a1, a2, a3), (b1, b2, b3) =>
      (a1 <? b1) || ((a1 =? b1) && ((a2 <? b2) || ((a2 =? b2) && (a3 <=? b3))))
  end.

(** [Iterator::max_by_key] over [col_widths.iter().cloned().enumerate()]:
    [max_by] keeps the later element unless the earlier one is strictly
    greater, so of equal keys the last one is returned. *)
Fixpoint max_by_key_from (col_sizes : list SizeEstimate)
    (best : nat * (N * N * N)) (colno : nat) (ws : list N)
  : option (nat * (N * N * N)) :=
  match ws with
  | [] => Some best
  | w :: ws' =>
      let* k := col_key col_sizes colno w in
      let best' := if key_leb (snd best) k then (colno, k) else best in
      max_by_key_from col_sizes best' (S colno) ws'
  end.

Definition max_by_key_col (col_sizes : list SizeEstimate) (ws : list N) : option nat :=
  match ws with
  | [] => None                                    (* .unwrap() *)
  | w :: ws' =>
      let* k := col_key col_sizes 0 w in
      let* r := max_by_key_from col_sizes (0%nat, k) 1 ws' in
      Some (fst r)
  end.

(** One iteration of the loop body: [col_widths[i] -= 1]. *)
Definition reduce_step (col_sizes : list SizeEstimate) (col_widths : list N)
  : option (list N) :=
  let* i := max_by_key_col col_sizes col_widths in
  update_nth col_widths i (fun w => checked_sub w 1).

(** [while col_widths.iter().cloned().sum::<usize>() > width { ... }];
    each iteration lowers the sum by one, so the initial sum bounds the
    number of iterations. *)
Fixpoint reduce_loop (fuel : nat) (width : N) (col_sizes : list SizeEstimate)
    (col_widths : list N) : option (list N) :=
  if sumN col_widths <=? width then Some col_widths
  else
    match fuel with
    | O => None
    | S fuel' =>
        let* ws := reduce_step col_sizes col_widths in
        reduce_loop fuel' width col_sizes ws
    end.

(** The column widths right after the reduction loop.  The loop
    condition sums the widths on [usize]; each iteration lowers that sum,
    so only its first evaluation can overflow, which [checked_sum] checks
    before the loop. *)
Definition widths_after_loop (width : N) (col_sizes : list SizeEstimate) : option (list N) :=
  let* ws := initial_col_widths width col_sizes in
  let* _ := checked_sum ws in
  reduce_loop (N.to_nat (sumN ws)) width col_sizes ws.

(** The final column widths: the last column gets one extra cell. *)
Definition table_col_widths (width : N) (col_sizes : list SizeEstimate) : option (list N) :=
  let* ws := widths_after_loop width col_sizes in
  match ws with
  | [] => Some ws
  | _ => update_nth ws (length ws - 1) (fun w => checked_add w 1)
  end.

Example col_sizes_ex :
  table_col_sizes 3 [[(1, mkSizeEstimate 1 5); (1, mkSizeEstimate 1 5); (1, mkSizeEstimate 1 5)]]
  = Some [mkSizeEstimate 1 5; mkSizeEstimate 1 5; mkSizeEstimate 1 5].
Proof. reflexivity. Qed.

Example widths_ex :
  widths_after_loop 20 [mkSizeEstimate 1 5; mkSizeEstimate 1 5; mkSizeEstimate 1 5]
  = Some [6; 6; 6].
Proof. reflexivity. Qed.

Example widths_ex2 :
  widths_after_loop 8 [mkSizeEstimate 1 5; mkSizeEstimate 1 5]
  = Some [4; 4].
Proof. reflexivity. Qed.

Example reduce_step_ex :
  reduce_step [mkSizeEstimate 1 5; mkSizeEstimate 1 5] [5; 5] = Some [4; 5].
Proof. reflexivity. Qed.

(** ** The annotated control pipeline ([ansi_colours.rs]) *)

Definition Uuid := N.

(** Modelled from the spec: [RichAnnotation] is declared in the
    [render::text_renderer] module, which is not part of the sources at
    hand.  The constructors the pipeline matches on ([NoBreakBegin],
    [RedactedBegin(psk, id)], [Image(src, w, h)], [RedactedEnd(_, id)],
    [NoBreakEnd], [Custom(typ, value)]) have the fields the code binds; the
    others are the variants the spec lists, which the pipeline sends to its
    [_ => ()] arm. *)
Module RichAnnotation.
Inductive t : Type :=
| Default
| Link (url : string)
| Image (src : string) (w h : N)
| Emphasis
| Strong
| Strikeout
| Code
| Preformat (info : bool)
| Colored (r g b : N)
| Bell
| NoBreakBegin
| NoBreakEnd
| RedactedBegin (psk : string) (id : Uuid)
| RedactedEnd (psk : string) (id : Uuid)
| Custom (typ : string) (value : list string).
End RichAnnotation.

(** [enum Control] ([ansi_colours.rs], lines 14-27). *)
Module Control.
Inductive t : Type :=
| Default
| RedactedBegin (psk : string) (id : Uuid)
| RedactedEnd (id : Uuid)
| Str (s : string)
| NoBreakBegin
| NoBreakEnd
| Image (src : string) (w h : N)
| Bell (s : string)
| LF
| StrRedacted (s : string) (id : Uuid)
| Audio (src : string).
End Control.

(** A tagged string of a rendered line: the text [s] and its annotations
    [tag], outer first. *)
Record TaggedString := mkTaggedString { s : string; tag : list RichAnnotation.t }.

(** A line, as [line.tagged_strings()] lists it. *)
Definition TaggedLine := list TaggedString.

(** The caller's styling map [FMap]: (prefix, content transform, suffix). *)
Definition FMap := RichAnnotation.t -> string * (string -> string) * string.

(** The mutable state of the loop: [cmds] and [redacted_stack] (a [Vec],
    whose last element is the top). *)
Record PipelineState := mkPipelineState {
  cmds : list Control.t;
  redacted_stack : list Uuid
}.

Definition vec_last {A} (l : list A) : option A :=
  match rev l with [] => None | x :: _ => Some x end.

Definition push_cmd (st : PipelineState) (c : Control.t) : PipelineState :=
  mkPipelineState (cmds st ++ [c]) (redacted_stack st).

(** [assert!(&ts.s.is_empty())] *)
Definition assert_empty (text : string) : option unit :=
  if String.eqb text EmptyString then Some tt else None.

(** One iteration of the first [for ann in &ts.tag] loop (lines 58-101):
    the marker scan, threading [(state, is_marker)]. *)
Definition scan_ann (text : string) (acc : PipelineState * bool)
    (ann : RichAnnotation.t) : option (PipelineState * bool) :=
  let (st, is_marker) := acc in
  match ann with
  | RichAnnotation.NoBreakBegin =>
      let* _ := assert_empty text in
      Some (push_cmd st Control.NoBreakBegin, true)
  | RichAnnotation.RedactedBegin _ id =>
      let* _ := assert_empty text in
      Some (mkPipelineState (cmds st) (redacted_stack st ++ [id]), true)
  | RichAnnotation.Image src w h =>
      let* area := checked_mul w h in
      if 1 <=? area then Some (push_cmd st (Control.Image src w h), true)
      else Some (st, is_marker)
  | RichAnnotation.RedactedEnd _ id =>
      let* _ := assert_empty text in
      let* top := vec_last (redacted_stack st) in      (* .unwrap() *)
      if N.eqb top id
      then Some (mkPipelineState (cmds st) (removelast (redacted_stack st)), true)
      else None
  | RichAnnotation.NoBreakEnd =>
      let* _ := assert_empty text in
      Some (push_cmd st Control.NoBreakEnd, true)
  | RichAnnotation.Custom typ value =>
      if String.eqb typ "audio" then
        match value with
        | [] => None                                   (* assert!(!value.is_empty()) *)
        | v0 :: _ => Some (push_cmd st (Control.Audio v0), true)
        end
      else Some (st, is_marker)
  | _ => Some (st, is_marker)
  end.

(** The second [for ann in &ts.tag] loop (lines 106-114), threading
    [(start, finish, content, mutated)]. *)
Definition style_ann (map : FMap) (text : string)
    (acc : string * string * string * bool) (ann : RichAnnotation.t)
  : string * string * string * bool :=
  match acc with
  | (start, finish, content, _) =>
      match map ann with
      | (s0, mutator, f) => (start ++ s0, finish ++ f, content ++ mutator text, true)
      end
  end%string.

(** The string a non-marker span is emitted with (lines 106-120). *)
Definition styled_string (map : FMap) (ts : TaggedString) : string :=
  match fold_left (style_ann map (s ts)) (tag ts) (EmptyString, EmptyString, EmptyString, false) with
  | (start, finish, content, mutated) =>
      if mutated then (start ++ content ++ finish)%string
      else (start ++ s ts ++ finish)%string
  end.

(** The body of [for ts in line.tagged_strings()] (lines 53-125): the
    new state and [is_marker]; [is_marker = true] means the [break]. *)
Definition render_span (map : FMap) (st : PipelineState) (ts : TaggedString)
  : option (PipelineState * bool) :=
  let* r := fold_left_opt (scan_ann (s ts)) (tag ts) (st, false) in
  let (st', is_marker) := r in
  if is_marker then Some (st', true)
  else
    let str := styled_string map ts in
    match vec_last (redacted_stack st') with
    | Some id => Some (push_cmd st' (Control.StrRedacted str id), false)
    | None => Some (push_cmd st' (Control.Str str), false)
    end.

(** [for ts in line.tagged_strings() { ... if is_marker { break; } ... }] *)
Fixpoint render_spans (map : FMap) (st : PipelineState) (is_marker : bool)
    (spans : TaggedLine) : option (PipelineState * bool) :=
  match spans with
  | [] => Some (st, is_marker)
  | ts :: rest =>
      let* r := render_span map st ts in
      let (st', m) := r in
      if m then Some (st', true) else render_spans map st' false rest
  end.

(** The body of [for line in lines] (lines 51-130). *)
Definition render_line (map : FMap) (st : PipelineState) (line : TaggedLine)
  : option PipelineState :=
  let* r := render_spans map st false line in
  let (st', is_marker) := r in
  if negb is_marker then Some (push_cmd st' Control.LF) else Some st'.

Definition render_lines (map : FMap) (lines : list TaggedLine) : option (list Control.t) :=
  let* st := fold_left_opt (render_line map) lines (mkPipelineState [] []) in
  Some (cmds st).

Section Pipeline.

(** The render tree and [input.render(width, RichDecorator::new()).into_lines()]:
    the text renderer is not part of the sources at hand, so the pipeline
    is stated for any of them. *)
Variable RenderTree : Type.
Variable render : RenderTree -> N -> list TaggedLine.

(** [just_render] (lines 36-135); [Ok(cmds)], with [None] for a panic. *)
Definition just_render (input : RenderTree) (width : N) (map : FMap)
  : option (list Control.t) :=
  render_lines map (render input width).

End Pipeline.

(** [custom_render] (lines 138-238) repeats the loop of [just_render] on
    [parse(input)]; its loop is embedded again, as its own copy. *)
Module CustomRender.

Definition scan_ann (text : string) (acc : PipelineState * bool)
    (ann : RichAnnotation.t) : option (PipelineState * bool) :=
  let (st, is_marker) := acc in
  match ann with
  | RichAnnotation.NoBreakBegin =>
      let* _ := assert_empty text in
      Some (push_cmd st Control.NoBreakBegin, true)
  | RichAnnotation.RedactedBegin _ id =>
      let* _ := assert_empty text in
      Some (mkPipelineState (cmds st) (redacted_stack st ++ [id]), true)
  | RichAnnotation.Image src w h =>
      let* area := checked_mul w h in
      if 1 <=? area then Some (push_cmd st (Control.Image src w h), true)
      else Some (st, is_marker)
  | RichAnnotation.RedactedEnd _ id =>
      let* _ := assert_empty text in
      let* top := vec_last (redacted_stack st) in
      if N.eqb top id
      then Some (mkPipelineState (cmds st) (removelast (redacted_stack st)), true)
      else None
  | RichAnnotation.NoBreakEnd =>
      let* _ := assert_empty text in
      Some (push_cmd st Control.NoBreakEnd, true)
  | RichAnnotation.Custom typ value =>
      if String.eqb typ "audio" then
        match value with
        | [] => None
        | v0 :: _ => Some (push_cmd st (Control.Audio v0), true)
        end
      else Some (st, is_marker)
  | _ => Some (st, is_marker)
  end.

Definition style_ann (map : FMap) (text : string)
    (acc : string * string * string * bool) (ann : RichAnnotation.t)
  : string * string * string * bool :=
  match acc with
  | (start, finish, content, _) =>
      match map ann with
      | (s0, mutator, f) => (start ++ s0, finish ++ f, content ++ mutator text, true)
      end
  end%string.

Definition styled_string (map : FMap) (ts : TaggedString) : string :=
  match fold_left (style_ann map (s ts)) (tag ts) (EmptyString, EmptyString, EmptyString, false) with
  | (start, finish, content, mutated) =>
      if mutated then (start ++ content ++ finish)%string
      else (start ++ s ts ++ finish)%string
  end.

Definition render_span (map : FMap) (st : PipelineState) (ts : TaggedString)
  : option (PipelineState * bool) :=
  let* r := fold_left_opt (scan_ann (s ts)) (tag ts) (st, false) in
  let (st', is_marker) := r in
  if is_marker then Some (st', true)
  else
    let str := styled_string map ts in
    match vec_last (redacted_stack st') with
    | Some id => Some (push_cmd st' (Control.StrRedacted str id), false)
    | None => Some (push_cmd st' (Control.Str str), false)
    end.

Fixpoint render_spans (map : FMap) (st : PipelineState) (is_marker : bool)
    (spans : TaggedLine) : option (PipelineState * bool) :=
  match spans with
  | [] => Some (st, is_marker)
  | ts :: rest =>
      let* r := render_span map st ts in
      let (st', m) := r in
      if m then Some (st', true) else render_spans map st' false rest
  end.

Definition render_line (map : FMap) (st : PipelineState) (line : TaggedLine)
  : option PipelineState :=
  let* r := render_spans map st false line in
  let (st', is_marker) := r in
  if negb is_marker then Some (push_cmd st' Control.LF) else Some st'.

Section Custom.

Variable Input : Type.
Variable RenderTree : Type.
(** [parse]: the markup parser (external), which also draws the ids of the
    redacted sections. *)
Variable parse : Input -> RenderTree.
Variable render : RenderTree -> N -> list TaggedLine.

Definition custom_render (input : Input) (width : N) (map : FMap)
  : option (list Control.t) :=
  let lines := render (parse input) width in
  let* st := fold_left_opt (render_line map) lines (mkPipelineState [] []) in
  Some (cmds st).

End Custom.

End CustomRender.

(** ** The page block builder ([try_build_block], lines 240-308) *)

Record PageBlock := mkPageBlock { inner : list Control.t; height : N }.

Definition PageBlock_default : PageBlock := mkPageBlock [] 0.

Record BuilderState := mkBuilderState {
  blocks : list PageBlock;
  block : PageBlock;
  no_break : bool
}.

Definition block_push (b : PageBlock) (c : Control.t) : PageBlock :=
  mkPageBlock (inner b ++ [c]) (height b).

(** One iteration of [for c in controls]. *)
Definition build_step (st : BuilderState) (c : Control.t) : option BuilderState :=
  let '(mkBuilderState bs b nb) := st in
  match c with
  | Control.Default | Control.RedactedBegin _ _ | Control.RedactedEnd _ => None
  | Control.LF =>
      let b' := mkPageBlock (inner b ++ [Control.LF]) (height b + 1) in
      if negb nb then Some (mkBuilderState (bs ++ [b']) PageBlock_default nb)
      else Some (mkBuilderState bs b' nb)
  | Control.NoBreakBegin =>
      if nb then None
      else
        match inner b with
        | [] => Some (mkBuilderState bs b true)
        | _ => Some (mkBuilderState (bs ++ [b]) PageBlock_default true)
        end
  | Control.NoBreakEnd =>
      if negb nb then None
      else Some (mkBuilderState (bs ++ [b]) PageBlock_default false)
  | Control.Image src w h =>
      let '(bs', b') :=
        match inner b with
        | [] => (bs, b)
        | _ => (bs ++ [b], PageBlock_default)
        end in
      let b'' := mkPageBlock (inner b' ++ [Control.Image src w h]) (height b' + h) in
      Some (mkBuilderState (bs' ++ [b'']) PageBlock_default nb)
  | x => Some (mkBuilderState bs (block_push b x) nb)
  end.

Definition builder_init : BuilderState := mkBuilderState [] PageBlock_default false.

Definition try_build_block (controls : list Control.t) : option (list PageBlock) :=
  let* st := fold_left_opt build_step controls builder_init in
  Some (blocks st).

(** ** Table cells from markup ([td_to_render_tree], [lib.rs] lines 432-449) *)

(** [char::to_digit(10)] *)
Definition to_digit (c : Ascii.ascii) : option N :=
  let n := N.of_nat (Ascii.nat_of_ascii c) in
  if (48 <=? n) && (n <=? 57) then Some (n - 48) else None.

Fixpoint parse_digits (acc : N) (digits : string) : option N :=
  match digits with
  | EmptyString => Some acc
  | String c rest =>
      let* x := to_digit c in
      let* m := checked_mul acc 10 in
      if m + x <=? usize_max then parse_digits (m + x) rest else None
  end.

(** [<usize as FromStr>::from_str]: an optional leading [+], then decimal
    digits, at least one, without overflow; [None] is the [Err]. *)
Definition usize_from_str (src : string) : option N :=
  match src with
  | EmptyString => None
  | String c rest =>
      if Ascii.eqb c "+"%char || Ascii.eqb c "-"%char then
        match rest with
        | EmptyString => None
        | _ => if Ascii.eqb c "+"%char then parse_digits 0 rest else parse_digits 0 src
        end
      else parse_digits 0 src
  end.

(** [td_to_render_tree]: [attrs] are the cell's [(name.local, value)]
    attributes and [children] its converted children. *)
Definition td_to_render_tree (attrs : list (string * string))
    (children : list RenderNode) : RenderTableCell :=
  let colspan :=
    fold_left
      (fun colspan attr =>
         if String.eqb (fst attr) "colspan" then
           match usize_from_str (snd attr) with Some v => v | None => 1 end
         else colspan)
      attrs 1 in
  MkRenderTableCell colspan children.

Example usize_from_str_ex :
  map usize_from_str ["12"; "+3"; "-1"; ""; "+"; "x"; "0"]%string
  = [Some 12; Some 3; None; None; None; None; Some 0].
Proof. reflexivity. Qed.

(** ** The table estimate as the spec states it *)

(** The cells of a row with the column each starts at. *)
Fixpoint cell_columns_from (colno : N) (row : list (N * SizeEstimate))
  : list (N * N * SizeEstimate) :=
  match row with
  | [] => []
  | (k, e) :: rest => (colno, k, e) :: cell_columns_from (colno + k) rest
  end.

(** The [(colspan, estimate)] of the cells intersecting column [c]. *)
Definition cells_at (c : N) (rows : list (list (N * SizeEstimate))) : list (N * SizeEstimate) :=
  flat_map
    (fun row =>
       flat_map (fun '(start, k, e) => if (start <=? c) && (c <? start + k) then [(k, e)] else [])
         (cell_columns_from 0 row))
    rows.

(** Per column: the sum of [cell.size/colspan] and the max of
    [cell.min_width/colspan]; in total: the sum of the sizes and the sum of
    the minimum widths plus [column_count - 1]. *)
Definition spec_table_estimate (num_columns : N) (rows : list (list (N * SizeEstimate)))
  : SizeEstimate :=
  let cols := map N.of_nat (seq 0 (N.to_nat num_columns)) in
  let col_size c := sumN (map (fun '(k, e) => size e / k) (cells_at c rows)) in
  let col_min c := fold_left N.max (map (fun '(k, e) => min_width e / k) (cells_at c rows)) 0 in
  mkSizeEstimate (sumN (map col_size cols)) (sumN (map col_min cols) + num_columns - 1).

(** ** Further embedded code *)

Definition table_num_columns (t : RenderTable) : N :=
  match t with MkRenderTable _ n => n end.

(** [RenderTableRow::cell_columns] ([lib.rs], lines 170-182): each cell
    with the column it starts at; [colno += colspan] is on [usize]. *)
Definition cell_columns (r : RenderTableRow) : option (list (N * RenderTableCell)) :=
  let* acc :=
    fold_left_opt
      (fun (acc : list (N * RenderTableCell) * N) cell =>
         let (result, colno) := acc in
         let* colno' := checked_add colno (cell_colspan cell) in
         Some ((colno, cell) :: result, colno'))
      (cells r) ([], 0) in
  Some (rev (fst acc)).

(** [v[a..b].iter().sum::<usize>()]: the range panics when [a > b] or
    [b > v.len()], the sum when it overflows. *)
Definition slice_sum (v : list N) (a b : N) : option N :=
  if (a <=? b) && (b <=? N.of_nat (length v))
  then checked_sum (firstn (N.to_nat (b - a)) (skipn (N.to_nat a) v))
  else None.

(** The cells [render_table_tree] renders for one row ([lib.rs], lines
    698-711): each cell gets a sub-renderer of width [col_width - 1], where
    [col_width] sums the widths of the columns it spans; a cell with
    [col_width <= 1] is skipped. *)
Definition cell_col_width (col_widths : list N) (cc : N * RenderTableCell)
  : option (N * RenderTableCell) :=
  let (colno, cell) := cc in
  let* b := checked_add colno (cell_colspan cell) in
  let* w := slice_sum col_widths colno b in
  Some (w, cell).

Definition row_sub_widths (col_widths : list N) (r : RenderTableRow)
  : option (list (N * RenderTableCell)) :=
  let* cc := cell_columns r in
  let* cw := map_opt (cell_col_width col_widths) cc in
  Some (flat_map (fun '(w, cell) => if 1 <? w then [(w - 1, cell)] else []) cw).

(** The per-column sizes of [render_table_tree] for a table. *)
Definition table_col_sizes_of (t : RenderTable) : option (list SizeEstimate) :=
  match t with
  | MkRenderTable rows num_columns =>
      let* est := map_opt row_cell_estimates rows in
      table_col_sizes num_columns est
  end.

(** [StringReader::read] ([examples/html2text.rs], lines 25-35) on the
    remaining bytes [iter] and the buffer [buf]: the loop over
    [0..buf.len()], returning the bytes left, the buffer and the count. *)
Fixpoint read_loop (i : nat) (k : nat) (iter buf : list Byte.byte)
  : list Byte.byte * list Byte.byte * nat :=
  match k with
  | O => (iter, buf, i)
  | S k' =>
      match iter with
      | [] => (iter, buf, i)                          (* return Ok(i) *)
      | x :: iter' => read_loop (S i) k' iter' (firstn i buf ++ x :: skipn (S i) buf)
      end
  end.

Definition StringReader_read (iter buf : list Byte.byte)
  : list Byte.byte * list Byte.byte * nat :=
  read_loop 0 (length buf) iter buf.

(** [StringReader::new]: the bytes of the string. *)
Definition StringReader_new (data : string) : list Byte.byte := list_byte_of_string data.


(** *** Descriptions used to state properties *)

(** A caller draining a reader: [read] into a buffer of [k] zero bytes
    until it returns 0, collecting the bytes read. *)
Fixpoint read_all (fuel : nat) (k : nat) (iter : list Byte.byte) : list Byte.byte :=
  match fuel with
  | O => []
  | S fuel' =>
      let '(iter', buf, n) := StringReader_read iter (repeat Byte.x00 k) in
      match n with
      | O => []
      | _ => firstn n buf ++ read_all fuel' k iter'
      end
  end.

(** The controls [try_build_block] keeps in blocks: all but the no-break
    markers. *)
Definition kept_in_block (c : Control.t) : bool :=
  match c with
  | Control.NoBreakBegin | Control.NoBreakEnd => false
  | _ => true
  end.

(** The height a control adds to its block. *)
Definition control_height (c : Control.t) : N :=
  match c with
  | Control.LF => 1
  | Control.Image _ _ h => h
  | _ => 0
  end.

(** The controls that reach an [unreachable!()] of [try_build_block]. *)
Definition unreachable_control (c : Control.t) : bool :=
  match c with
  | Control.Default | Control.RedactedBegin _ _ | Control.RedactedEnd _ => true
  | _ => false
  end.

(** No-break markers that alternate, starting outside a section ([nb]
    says whether one is open), and no unreachable control. *)
Fixpoint sections_ok (nb : bool) (cs : list Control.t) : bool :=
  match cs with
  | [] => true
  | c :: cs' =>
      match c with
      | Control.Default | Control.RedactedBegin _ _ | Control.RedactedEnd _ => false
      | Control.NoBreakBegin => negb nb && sections_ok true cs'
      | Control.NoBreakEnd => nb && sections_ok false cs'
      | _ => sections_ok nb cs'
      end
  end.

(** Concatenation of strings. *)
Definition concat_strings (l : list string) : string :=
  fold_right String.append EmptyString l.

(** The value of a list of decimal digits, and the string of their
    characters. *)
Definition digits_value (ds : list N) : N := fold_left (fun a d => a * 10 + d) ds 0.

Definition digits_string (ds : list N) : string :=
  fold_right (fun d acc => String (Ascii.ascii_of_N (48 + d)) acc) EmptyString ds.



(** The cells of a row from column [colno] on, with their start columns. *)
Fixpoint columns_from (colno : N) (cs : list RenderTableCell) : list (N * RenderTableCell) :=
  match cs with
  | [] => []
  | c :: cs' => (colno, c) :: columns_from (colno + cell_colspan c) cs'
  end.

(** The controls of a builder state: its blocks' in order, then the
    pending block's. *)
Definition builder_contents (st : BuilderState) : list Control.t :=
  concat (map inner (blocks st)) ++ inner (block st).

(** A block whose height is the sum of its controls' heights. *)
Definition height_ok (b : PageBlock) : Prop := height b = sumN (map control_height (inner b)).

(** A line feed. *)
Definition is_LF (c : Control.t) : bool :=
  match c with Control.LF => true | _ => false end.

(** The commands other than the three [try_build_block] cannot handle. *)
Definition emitted (c : Control.t) : Prop := unreachable_control c = false.

(** A span made of one annotation over the empty string. *)
Definition marker_line (a : RichAnnotation.t) : TaggedLine := [mkTaggedString EmptyString [a]].

(** ** Theorems *)

(** C6 (code_bug). A [colspan="0"] attribute parses as the [usize] [0],
    which [unwrap_or(1)] keeps: the cell gets colspan 0, not 1. *)
Theorem td_colspan_zero :
  cell_colspan (td_to_render_tree [("colspan", "0")%string] [Text "x"]) = 0.
Proof. reflexivity. Qed.

(** C7 (code_bug). For the table [<td colspan="2">hello</td>], to which
    [RenderTable::new] gives two columns, [calc_size_estimate] gives each of the two columns the minimum width
    [max(0/2, 5) = 5] (it divides the running column minimum, not the
    cell's) and a total minimum width of 11, where the per-column rule
    [cell.min_width/colspan] gives [2] per column and 5 in total. *)
Theorem table_estimate_colspan_min_width :
  let r := MkRenderTableRow [MkRenderTableCell 2 [Text "hello"]] in
  RenderTable_new [r] = Some (MkRenderTable [r] 2)
  /\ table_get_size_estimate (MkRenderTable [r] 2) = Some (mkSizeEstimate 4 11)
  /\ spec_table_estimate 2 [[(2, mkSizeEstimate 5 5)]] = mkSizeEstimate 4 5.
Proof. split; [|split]; reflexivity. Qed.

Lemma fold_left_max_zeros (l : list N) :
  Forall (fun x => x = 0) l -> fold_left N.max l 0 = 0.
Proof.
  induction 1 as [|x l Hx _ IH]; simpl; [reflexivity|].
  subst x. exact IH.
Qed.

Lemma empty_rows_num_cells (rows : list RenderTableRow) :
  Forall (fun r => cells r = []) rows ->
  map_opt num_cells rows = Some (repeat 0 (length rows)).
Proof.
  induction 1 as [|r rs Hr _ IH]; [reflexivity|].
  cbn [map_opt]. unfold num_cells at 1. rewrite Hr. cbn. rewrite IH. reflexivity.
Qed.

Lemma empty_rows_num_columns (rows : list RenderTableRow) :
  Forall (fun r => cells r = []) rows ->
  RenderTable_new rows = Some (MkRenderTable rows 0).
Proof.
  intros H. unfold RenderTable_new. rewrite (empty_rows_num_cells rows H).
  cbv beta iota. destruct rows as [|r rs]; [reflexivity|].
  cbn [length repeat max_opt]. rewrite fold_left_max_zeros; [reflexivity|].
  apply Forall_forall. intros x Hx. apply repeat_spec in Hx. exact Hx.
Qed.

Lemma empty_rows_cell_estimates (rows : list RenderTableRow) :
  Forall (fun r => cells r = []) rows ->
  map_opt row_cell_estimates rows = Some (repeat [] (length rows)).
Proof.
  induction 1 as [|r rs Hr _ IH]; [reflexivity|].
  destruct r as [cs]. simpl in Hr. subst cs.
  simpl. rewrite IH. reflexivity.
Qed.

Lemma calc_size_estimate_empty_rows (n : nat) :
  fold_left_opt calc_size_estimate_row (repeat [] n) [] = Some [].
Proof. induction n; simpl; [reflexivity | exact IHn]. Qed.

(** C9. A table whose rows all have no cells has [num_columns = 0]
    ([RenderTable::new] allows it), and its size estimate computes
    [0 + 0 - 1] on [usize]: the subtraction underflows (a panic). *)
Theorem empty_table_estimate_underflows (rows : list RenderTableRow) :
  Forall (fun r => cells r = []) rows ->
  RenderTable_new rows = Some (MkRenderTable rows 0)
  /\ table_get_size_estimate (MkRenderTable rows 0) = None.
Proof.
  intros H. split; [exact (empty_rows_num_columns rows H)|].
  simpl. rewrite (empty_rows_cell_estimates rows H).
  unfold calc_size_estimate. simpl.
  rewrite calc_size_estimate_empty_rows. reflexivity.
Qed.

Lemma empty_table_estimate_underflows_witness :
  Forall (fun r => cells r = []) [MkRenderTableRow []]
  /\ RenderTable_new [MkRenderTableRow []] = Some (MkRenderTable [MkRenderTableRow []] 0)
  /\ table_get_size_estimate (MkRenderTable [MkRenderTableRow []] 0) = None.
Proof.
  split.
  - repeat constructor.
  - apply empty_table_estimate_underflows. repeat constructor.
Defined.

(** *** Lists of widths *)

Lemma fold_left_add_acc (l : list N) (a : N) :
  fold_left N.add l a = a + sumN l.
Proof.
  revert a. induction l as [|x l IH]; intros a; simpl.
  - unfold sumN. simpl. lia.
  - rewrite IH. unfold sumN at 2. simpl. rewrite IH. lia.
Qed.

Lemma sumN_cons (x : N) (l : list N) : sumN (x :: l) = x + sumN l.
Proof. unfold sumN at 1. simpl. rewrite fold_left_add_acc. lia. Qed.

Lemma sumN_app (l1 l2 : list N) : sumN (l1 ++ l2) = sumN l1 + sumN l2.
Proof.
  induction l1 as [|x l1 IH]; simpl.
  - reflexivity.
  - rewrite !sumN_cons, IH. lia.
Qed.

(** *** Checked arithmetic *)

Lemma checked_add_fold (l : list N) : forall a, a <= usize_max ->
  fold_left_opt checked_add l a
  = if a + sumN l <=? usize_max then Some (a + sumN l) else None.
Proof.
  induction l as [|x l IH]; intros a Ha; cbn [fold_left_opt].
  - change (sumN []) with 0. rewrite N.add_0_r.
    destruct (N.leb_spec a usize_max); [reflexivity | lia].
  - unfold checked_add at 1. rewrite sumN_cons.
    destruct (N.leb_spec (a + x) usize_max).
    + cbv beta iota. rewrite IH by lia. rewrite N.add_assoc. reflexivity.
    + destruct (N.leb_spec (a + (x + sumN l)) usize_max); [lia | reflexivity].
Qed.

(** A checked sum fails exactly when the sum exceeds [usize::MAX]. *)
Lemma checked_sum_spec (l : list N) :
  checked_sum l = if sumN l <=? usize_max then Some (sumN l) else None.
Proof.
  unfold checked_sum. rewrite checked_add_fold by (unfold usize_max; lia).
  rewrite N.add_0_l. reflexivity.
Qed.

Lemma checked_sum_ok (l : list N) : sumN l <= usize_max -> checked_sum l = Some (sumN l).
Proof. intros H. rewrite checked_sum_spec. destruct (N.leb_spec (sumN l) usize_max); [reflexivity | lia]. Qed.

Lemma map_opt_length {A B} (f : A -> option B) (l : list A) (l' : list B) :
  map_opt f l = Some l' -> length l' = length l.
Proof.
  revert l'. induction l as [|x l IH]; intros l' H; cbn [map_opt] in H.
  - injection H as <-. reflexivity.
  - destruct (f x); [|discriminate]. destruct (map_opt f l) as [ys|] eqn:E; [|discriminate].
    injection H as <-. cbn. f_equal. apply IH. reflexivity.
Qed.

Lemma map_opt_nth {A B} (f : A -> option B) (l : list A) (l' : list B) (d : A) (d' : B) :
  map_opt f l = Some l' -> forall j, (j < length l)%nat -> f (nth j l d) = Some (nth j l' d').
Proof.
  revert l'. induction l as [|x l IH]; intros l' H j Hj; cbn [length] in Hj; [lia|].
  cbn [map_opt] in H. destruct (f x) as [y|] eqn:Hx; [|discriminate].
  destruct (map_opt f l) as [ys|] eqn:E; [|discriminate]. injection H as <-.
  destruct j as [|j]; cbn [nth]; [exact Hx|]. apply IH; [reflexivity | lia].
Qed.

Lemma map_opt_none {A B} (f : A -> option B) (l : list A) :
  map_opt f l = None <-> exists x, In x l /\ f x = None.
Proof.
  induction l as [|x l IH]; cbn [map_opt].
  - split; [discriminate | intros (? & [] & _)].
  - destruct (f x) as [y|] eqn:Hx.
    + destruct (map_opt f l) as [ys|] eqn:E.
      * split; [discriminate|]. intros (z & [<-|Hz] & Hfz); [congruence|].
        discriminate (proj2 IH (ex_intro _ z (conj Hz Hfz))).
      * split; [|reflexivity]. intros _. destruct (proj1 IH eq_refl) as (z & Hz & Hfz).
        exists z. split; [right; exact Hz | exact Hfz].
    + split; [|reflexivity]. intros _. exists x. split; [left; reflexivity | exact Hx].
Qed.

Lemma map_opt_map {A B} (f : A -> option B) (g : A -> B) (l : list A) :
  (forall x, In x l -> f x = Some (g x)) -> map_opt f l = Some (map g l).
Proof.
  induction l as [|x l IH]; intros H; [reflexivity|].
  cbn [map_opt map]. rewrite (H x (or_introl eq_refl)), IH; [reflexivity|].
  intros y Hy. apply H. right. exact Hy.
Qed.

Lemma split_at_nth {A} (l : list A) (i : nat) (d : A) :
  (i < length l)%nat -> l = firstn i l ++ nth i l d :: skipn (S i) l.
Proof.
  revert i. induction l as [|x l IH]; intros i Hi; simpl in Hi; [lia|].
  destruct i as [|i]; simpl; [reflexivity|].
  f_equal. apply IH. lia.
Qed.

Lemma update_nth_some {A} (l : list A) (i : nat) (f : A -> option A) (d y : A) :
  (i < length l)%nat -> f (nth i l d) = Some y ->
  update_nth l i f = Some (firstn i l ++ y :: skipn (S i) l).
Proof.
  revert i. induction l as [|x l IH]; intros i Hi Hf; simpl in Hi; [lia|].
  destruct i as [|i]; simpl in *.
  - rewrite Hf. reflexivity.
  - rewrite (IH i); [reflexivity | lia | exact Hf].
Qed.

Lemma length_replace_nth {A} (l : list A) (i : nat) (y : A) :
  (i < length l)%nat -> length (firstn i l ++ y :: skipn (S i) l) = length l.
Proof.
  intros Hi. rewrite length_app, length_firstn. cbn [length]. rewrite length_skipn. lia.
Qed.

Lemma sumN_pos_nth (l : list N) :
  0 < sumN l -> exists j, (j < length l)%nat /\ 1 <= nth j l 0.
Proof.
  induction l as [|x l IH]; intros H.
  - unfold sumN in H. simpl in H. lia.
  - rewrite sumN_cons in H.
    destruct (N.eq_dec x 0) as [Hx|Hx].
    + destruct IH as [j [Hj Hn]]; [lia|].
      exists (S j). simpl. split; [lia | exact Hn].
    + exists O. simpl. split; [lia | lia].
Qed.

(** *** The key of [max_by_key] *)

Lemma key_leb_iff (a1 a2 a3 b1 b2 b3 : N) :
  key_leb (a1, a2, a3) (b1, b2, b3) = true <->
  a1 < b1 \/ (a1 = b1 /\ (a2 < b2 \/ (a2 = b2 /\ a3 <= b3))).
Proof.
  unfold key_leb.
  rewrite Bool.orb_true_iff, Bool.andb_true_iff, Bool.orb_true_iff, Bool.andb_true_iff,
    N.ltb_lt, N.eqb_eq, N.ltb_lt, N.eqb_eq, N.leb_le.
  tauto.
Qed.

Lemma key_leb_false_iff (a1 a2 a3 b1 b2 b3 : N) :
  key_leb (a1, a2, a3) (b1, b2, b3) = false <->
  ~ (a1 < b1 \/ (a1 = b1 /\ (a2 < b2 \/ (a2 = b2 /\ a3 <= b3)))).
Proof.
  rewrite <- key_leb_iff. destruct (key_leb _ _); split; congruence.
Qed.

Ltac key_lia :=
  repeat match goal with
  | p : (N * N * N)%type |- _ => destruct p as [[? ?] ?]
  end;
  repeat match goal with
  | H : key_leb (_, _, _) (_, _, _) = true |- _ => apply key_leb_iff in H
  | H : key_leb (_, _, _) (_, _, _) = false |- _ => apply key_leb_false_iff in H
  | |- key_leb (_, _, _) (_, _, _) = true => apply key_leb_iff
  end;
  lia.

(** The key of column [j], once its index is known to be in range. *)
Definition keyf (col_sizes : list SizeEstimate) (j : nat) (w : N) : N * N * N :=
  (w - min_width (nth j col_sizes SizeEstimate_default), w, usize_max - N.of_nat j).

Lemma col_key_in_range (col_sizes : list SizeEstimate) (j : nat) (w : N) :
  (j < length col_sizes)%nat -> col_key col_sizes j w = Some (keyf col_sizes j w).
Proof.
  intros Hj. unfold col_key, keyf.
  destruct (nth_error col_sizes j) as [sz|] eqn:E.
  - rewrite (nth_error_nth _ _ _ E). reflexivity.
  - apply nth_error_None in E. lia.
Qed.

Lemma nth_shift {A} (w : A) (l : list A) (d : A) (colno j : nat) :
  (colno < j)%nat -> nth (j - colno) (w :: l) d = nth (j - S colno) l d.
Proof.
  intros H. replace (j - colno)%nat with (S (j - S colno)) by lia. reflexivity.
Qed.

Lemma max_by_key_from_spec (cs : list SizeEstimate) (ws : list N) :
  forall colno bi bk,
  (colno + length ws <= length cs)%nat ->
  exists ri rk,
    max_by_key_from cs (bi, bk) colno ws = Some (ri, rk)
    /\ ((ri = bi /\ rk = bk)
        \/ ((colno <= ri < colno + length ws)%nat
            /\ rk = keyf cs ri (nth (ri - colno) ws 0)))
    /\ key_leb bk rk = true
    /\ (forall j, (colno <= j < colno + length ws)%nat ->
          key_leb (keyf cs j (nth (j - colno) ws 0)) rk = true).
Proof.
  induction ws as [|w ws IH]; intros colno bi bk Hlen; simpl in Hlen.
  - exists bi, bk. simpl. split; [reflexivity|]. split; [left; split; reflexivity|].
    split; [key_lia | intros j Hj; lia].
  - cbn [max_by_key_from length]. rewrite col_key_in_range by lia.
    set (k := keyf cs colno w). cbn [snd].
    destruct (key_leb bk k) eqn:Hk.
    + destruct (IH (S colno) colno k) as (ri & rk & Hrun & Hwho & Hle & Hall); [lia|].
      exists ri, rk. split; [exact Hrun|]. split.
      * right. destruct Hwho as [[-> ->] | [Hri ->]].
        -- split; [lia|]. rewrite Nat.sub_diag. reflexivity.
        -- split; [lia|]. rewrite nth_shift by lia. reflexivity.
      * split; [key_lia|].
        intros j Hj. destruct (Nat.eq_dec j colno) as [->|Hne].
        -- rewrite Nat.sub_diag. exact Hle.
        -- rewrite nth_shift by lia. apply Hall. lia.
    + destruct (IH (S colno) bi bk) as (ri & rk & Hrun & Hwho & Hle & Hall); [lia|].
      exists ri, rk. split; [exact Hrun|]. split.
      * destruct Hwho as [Hsame | [Hri ->]]; [left; exact Hsame|].
        right. split; [lia|]. rewrite nth_shift by lia. reflexivity.
      * split; [exact Hle|].
        intros j Hj. destruct (Nat.eq_dec j colno) as [->|Hne].
        -- rewrite Nat.sub_diag. cbn [nth]. fold k. key_lia.
        -- rewrite nth_shift by lia. apply Hall. lia.
Qed.

Lemma nth_cons_pred {A} (w : A) (l : list A) (d : A) (j : nat) :
  (1 <= j)%nat -> nth j (w :: l) d = nth (j - 1) l d.
Proof. intros H. destruct j as [|j]; [lia|]. simpl. rewrite Nat.sub_0_r. reflexivity. Qed.

Lemma max_by_key_col_spec (cs : list SizeEstimate) (ws : list N) :
  length ws = length cs -> ws <> [] ->
  exists i, max_by_key_col cs ws = Some i /\ (i < length ws)%nat
    /\ forall j, (j < length ws)%nat ->
         key_leb (keyf cs j (nth j ws 0)) (keyf cs i (nth i ws 0)) = true.
Proof.
  intros Hlen Hne. destruct ws as [|w ws]; [contradiction|].
  cbn [length] in Hlen.
  cbn [max_by_key_col]. rewrite col_key_in_range by lia.
  destruct (max_by_key_from_spec cs ws 1 0 (keyf cs 0 w))
    as (ri & rk & Hrun & Hwho & Hle & Hall); [lia|].
  rewrite Hrun. exists ri. cbn [fst length].
  destruct Hwho as [[-> ->] | [Hri ->]].
  - split; [reflexivity|]. split; [lia|].
    intros j Hj. destruct j as [|j].
    + cbn [nth]. unfold keyf. key_lia.
    + rewrite nth_cons_pred by lia. apply Hall. lia.
  - split; [reflexivity|]. split; [lia|].
    rewrite (nth_cons_pred w ws 0 ri) by lia.
    intros j Hj. destruct j as [|j].
    + cbn [nth]. exact Hle.
    + rewrite nth_cons_pred by lia. apply Hall. lia.
Qed.

Lemma reduce_step_spec (cs : list SizeEstimate) (ws : list N) :
  length ws = length cs -> 0 < sumN ws ->
  exists i, (i < length ws)%nat /\ 1 <= nth i ws 0
    /\ reduce_step cs ws = Some (firstn i ws ++ (nth i ws 0 - 1) :: skipn (S i) ws)
    /\ forall j, (j < length ws)%nat ->
         key_leb (keyf cs j (nth j ws 0)) (keyf cs i (nth i ws 0)) = true.
Proof.
  intros Hlen Hpos.
  assert (Hne : ws <> []) by (intros ->; unfold sumN in Hpos; simpl in Hpos; lia).
  destruct (max_by_key_col_spec cs ws Hlen Hne) as (i & Hmax & Hi & Hall).
  assert (Hwi : 1 <= nth i ws 0).
  { destruct (sumN_pos_nth ws Hpos) as (j & Hj & Hwj).
    specialize (Hall j Hj). unfold keyf in Hall. key_lia. }
  exists i. split; [exact Hi|]. split; [exact Hwi|]. split; [|exact Hall].
  unfold reduce_step. rewrite Hmax.
  apply (update_nth_some ws i (fun w => checked_sub w 1) 0); [exact Hi|].
  unfold checked_sub. destruct (N.leb_spec 1 (nth i ws 0)); [reflexivity | lia].
Qed.

Lemma sumN_replace_dec (ws : list N) (i : nat) :
  (i < length ws)%nat -> 1 <= nth i ws 0 ->
  sumN (firstn i ws ++ (nth i ws 0 - 1) :: skipn (S i) ws) = sumN ws - 1.
Proof.
  intros Hi Hw.
  assert (Hs : sumN ws = sumN (firstn i ws ++ nth i ws 0 :: skipn (S i) ws))
    by (f_equal; apply split_at_nth; exact Hi).
  rewrite sumN_app, sumN_cons in Hs.
  rewrite sumN_app, sumN_cons. lia.
Qed.

Lemma reduce_loop_spec (width : N) (cs : list SizeEstimate) (fuel : nat) :
  forall ws, length ws = length cs -> sumN ws - width <= N.of_nat fuel ->
  exists ws', reduce_loop fuel width cs ws = Some ws'
              /\ sumN ws' = N.min (sumN ws) width.
Proof.
  induction fuel as [|fuel IH]; intros ws Hlen Hfuel; simpl.
  - destruct (N.leb_spec (sumN ws) width); [|lia].
    exists ws. split; [reflexivity | lia].
  - destruct (N.leb_spec (sumN ws) width) as [Hle|Hgt].
    + exists ws. split; [reflexivity | lia].
    + destruct (reduce_step_spec cs ws Hlen) as (i & Hi & Hwi & Hstep & _); [lia|].
      rewrite Hstep.
      destruct (IH (firstn i ws ++ (nth i ws 0 - 1) :: skipn (S i) ws))
        as (ws' & Hrun & Hsum).
      * rewrite length_replace_nth by exact Hi. exact Hlen.
      * rewrite sumN_replace_dec by assumption. lia.
      * exists ws'. split; [exact Hrun|].
        rewrite Hsum, sumN_replace_dec by assumption. lia.
Qed.

(** *** The solver claims *)

(** The pair a column is ranked by: [(max(width[i] - min_width[i], 0), width[i])]. *)
Definition col_pair (cs : list SizeEstimate) (ws : list N) (j : nat) : N * N :=
  (nth j ws 0 - min_width (nth j cs SizeEstimate_default), nth j ws 0).

(** Lexicographic order on pairs. *)
Definition pair_le (p q : N * N) : Prop :=
  fst p < fst q \/ (fst p = fst q /\ snd p <= snd q).

(** C1 (counterexample). Two columns of width 5 over minimum 5, target 8:
    the first iteration decrements the leftmost column, not the rightmost. *)
Lemma reduce_step_tie_leftmost :
  reduce_step [mkSizeEstimate 1 5; mkSizeEstimate 1 5] [5; 5] = Some [4; 5]
  /\ reduce_step [mkSizeEstimate 1 5; mkSizeEstimate 1 5] [5; 5] <> Some [5; 4].
Proof. split; [reflexivity | discriminate]. Qed.

(** C1 (amended). While the widths sum to more than the target, an
    iteration of the loop decrements by exactly 1 a column [i] that
    maximizes [(max(width[i] - min_width[i], 0), width[i])]; of the columns
    tied on that pair it is the one with the lowest index (the leftmost). *)
Theorem reduce_step_picks_leftmost_max (cs : list SizeEstimate) (ws : list N) (width : N) :
  length ws = length cs -> N.of_nat (length ws) <= usize_max -> width < sumN ws ->
  exists i, (i < length ws)%nat /\ 1 <= nth i ws 0
    /\ reduce_step cs ws = Some (firstn i ws ++ (nth i ws 0 - 1) :: skipn (S i) ws)
    /\ (forall fuel, reduce_loop (S fuel) width cs ws
                     = reduce_loop fuel width cs (firstn i ws ++ (nth i ws 0 - 1) :: skipn (S i) ws))
    /\ (forall j, (j < length ws)%nat ->
          pair_le (col_pair cs ws j) (col_pair cs ws i)
          /\ (col_pair cs ws j = col_pair cs ws i -> (i <= j)%nat)).
Proof.
  intros Hlen Hmax Hgt.
  destruct (reduce_step_spec cs ws Hlen) as (i & Hi & Hwi & Hstep & Hall); [lia|].
  exists i. split; [exact Hi|]. split; [exact Hwi|]. split; [exact Hstep|]. split.
  - intros fuel. simpl. destruct (N.leb_spec (sumN ws) width); [lia|].
    rewrite Hstep. reflexivity.
  - intros j Hj. specialize (Hall j Hj). unfold keyf in Hall. unfold col_pair, pair_le. cbn [fst snd].
    split.
    + key_lia.
    + intros Heq. injection Heq as H1 H2. key_lia.
Qed.

Lemma reduce_step_picks_leftmost_max_witness :
  exists i, (i < 2)%nat /\ 1 <= nth i [5; 5] 0
    /\ reduce_step [mkSizeEstimate 1 5; mkSizeEstimate 1 5] [5; 5]
       = Some (firstn i [5; 5] ++ (nth i [5; 5] 0 - 1) :: skipn (S i) [5; 5])
    /\ (forall fuel, reduce_loop (S fuel) 8 [mkSizeEstimate 1 5; mkSizeEstimate 1 5] [5; 5]
         = reduce_loop fuel 8 [mkSizeEstimate 1 5; mkSizeEstimate 1 5]
             (firstn i [5; 5] ++ (nth i [5; 5] 0 - 1) :: skipn (S i) [5; 5]))
    /\ (forall j, (j < 2)%nat ->
          pair_le (col_pair [mkSizeEstimate 1 5; mkSizeEstimate 1 5] [5; 5] j)
                  (col_pair [mkSizeEstimate 1 5; mkSizeEstimate 1 5] [5; 5] i)
          /\ (col_pair [mkSizeEstimate 1 5; mkSizeEstimate 1 5] [5; 5] j
              = col_pair [mkSizeEstimate 1 5; mkSizeEstimate 1 5] [5; 5] i -> (i <= j)%nat)).
Proof.
  apply (reduce_step_picks_leftmost_max [mkSizeEstimate 1 5; mkSizeEstimate 1 5] [5; 5] 8);
    [reflexivity | vm_compute; discriminate | vm_compute; reflexivity].
Defined.

(** The column widths right after the loop, for a table: the estimates of
    its cells, the per-column sizes, the initial widths and the loop. *)
Definition table_widths_after_loop (t : RenderTable) (width : N) : option (list N) :=
  match t with
  | MkRenderTable rows num_columns =>
      let* est := map_opt row_cell_estimates rows in
      let* col_sizes := table_col_sizes num_columns est in
      widths_after_loop width col_sizes
  end.

(** C4 (counterexample). The one-row table [a | b | c] at width 20: each
    column has size 1 and minimum width 5, so each gets
    [max(1 * 20 / 3, 5) = 6]; the sum 18 is already within 20, the loop
    does nothing, and the widths sum to 18, not 20. *)
Lemma table_widths_sum_short :
  let r := MkRenderTableRow [MkRenderTableCell 1 [Text "a"];
                             MkRenderTableCell 1 [Text "b"];
                             MkRenderTableCell 1 [Text "c"]] in
  RenderTable_new [r] = Some (MkRenderTable [r] 3)
  /\ table_widths_after_loop (MkRenderTable [r] 3) 20 = Some [6; 6; 6]
  /\ sumN [6; 6; 6] <> 20.
Proof. split; [reflexivity | split; [reflexivity | vm_compute; discriminate]]. Qed.

(** The initial width of one column: [None] exactly when [sz.size * width]
    overflows. *)
Lemma initial_col_width_spec (width tot : N) (sz : SizeEstimate) :
  initial_col_width width tot sz
  = if size sz * width <=? usize_max
    then Some (if size sz =? 0 then 0 else N.max (size sz * width / tot) (min_width sz))
    else None.
Proof.
  unfold initial_col_width, checked_mul.
  destruct (N.eqb_spec (size sz) 0) as [H0|H0].
  - rewrite H0. cbn. reflexivity.
  - destruct (N.leb_spec (size sz * width) usize_max); reflexivity.
Qed.

Lemma initial_col_widths_length (width : N) (cs : list SizeEstimate) (ws0 : list N) :
  initial_col_widths width cs = Some ws0 -> length ws0 = length cs.
Proof. apply map_opt_length. Qed.

Lemma initial_col_widths_nth (width : N) (cs : list SizeEstimate) (ws0 : list N) (j : nat) :
  initial_col_widths width cs = Some ws0 ->
  nth j ws0 0
  = if size (nth j cs SizeEstimate_default) =? 0 then 0
    else N.max (size (nth j cs SizeEstimate_default) * width / sumN (map size cs))
               (min_width (nth j cs SizeEstimate_default)).
Proof.
  intros H. pose proof (initial_col_widths_length width cs ws0 H) as Hlen.
  destruct (Nat.ltb_spec j (length cs)) as [Hj|Hj].
  - pose proof (map_opt_nth _ _ _ SizeEstimate_default 0 H j Hj) as Hn.
    rewrite initial_col_width_spec in Hn.
    destruct (N.leb_spec (size (nth j cs SizeEstimate_default) * width) usize_max); [|discriminate].
    injection Hn as <-. reflexivity.
  - rewrite !nth_overflow by lia. reflexivity.
Qed.

(** C4 (amended). Right after the loop, the column widths sum to the
    smaller of the initial allocation's sum and the target width: exactly
    the target when the initial widths reach it, their unchanged sum
    (which floor division can leave below the target) otherwise.  (The
    loop is reached when the initial widths and their sum are computed
    without overflow.) *)
Theorem widths_after_loop_sum (width : N) (cs : list SizeEstimate) (ws0 : list N) :
  initial_col_widths width cs = Some ws0 -> sumN ws0 <= usize_max ->
  exists ws, widths_after_loop width cs = Some ws
             /\ sumN ws = N.min (sumN ws0) width.
Proof.
  intros H0 Hs. unfold widths_after_loop. rewrite H0. cbv beta iota.
  rewrite (checked_sum_ok ws0 Hs). cbv beta iota.
  apply reduce_loop_spec.
  - exact (initial_col_widths_length width cs ws0 H0).
  - rewrite N2Nat.id. lia.
Qed.

Lemma widths_after_loop_sum_witness :
  initial_col_widths 20 [mkSizeEstimate 1 5; mkSizeEstimate 1 5; mkSizeEstimate 1 5] = Some [6; 6; 6]
  /\ sumN [6; 6; 6] <= usize_max
  /\ exists ws, widths_after_loop 20 [mkSizeEstimate 1 5; mkSizeEstimate 1 5; mkSizeEstimate 1 5] = Some ws
               /\ sumN ws = N.min (sumN [6; 6; 6]) 20.
Proof.
  split; [reflexivity|]. split; [vm_compute; discriminate|].
  apply widths_after_loop_sum; [reflexivity | vm_compute; discriminate].
Defined.



(** *** The annotated control pipeline *)

Lemma fold_left_opt_app {A B} (f : A -> B -> option A) (l1 l2 : list B) (a : A) :
  fold_left_opt f (l1 ++ l2) a = let* a' := fold_left_opt f l1 a in fold_left_opt f l2 a'.
Proof.
  revert a. induction l1 as [|b l1 IH]; intros a; simpl; [reflexivity|].
  destruct (f a b); [apply IH | reflexivity].
Qed.

(** The identity styling: no prefix, no transform, no suffix. *)
Definition plain_map : FMap := fun _ => (EmptyString, fun x => x, EmptyString).

(** The string the spec describes for a non-marker span: the prefixes in
    annotation order, the transforms chained on the text, the suffixes in
    annotation order. *)
Definition chained_string (map : FMap) (ts : TaggedString) : string :=
  let parts := List.map map (tag ts) in
  (String.concat EmptyString (List.map (fun '(p, _, _) => p) parts)
   ++ fold_left (fun acc '(_, m, _) => m acc) parts (s ts)
   ++ String.concat EmptyString (List.map (fun '(_, _, f) => f) parts))%string.

(** C2 (code_bug). A span ["ab"] under two annotations with identity
    transforms comes out as ["abab"]: each transform is applied to the
    original text and the results are concatenated, where chaining them
    gives ["ab"]. *)
Theorem two_annotations_duplicate_text :
  let ts := mkTaggedString "ab" [RichAnnotation.Emphasis; RichAnnotation.Strong] in
  render_lines plain_map [[ts]] = Some [Control.Str "abab"; Control.LF]
  /\ chained_string plain_map ts = "ab"%string.
Proof. split; reflexivity. Qed.

(** The annotations the marker scan treats as markers. *)
Definition marker_ann (ann : RichAnnotation.t) : bool :=
  match ann with
  | RichAnnotation.NoBreakBegin | RichAnnotation.NoBreakEnd
  | RichAnnotation.RedactedBegin _ _ | RichAnnotation.RedactedEnd _ _ => true
  | RichAnnotation.Image _ w h => 1 <=? w * h
  | RichAnnotation.Custom typ _ => String.eqb typ "audio"
  | _ => false
  end.

Definition marker_span (ts : TaggedString) : bool := existsb marker_ann (tag ts).



(** The markers whose branch asserts that the span's text is empty. *)
Definition text_checked_marker (ann : RichAnnotation.t) : bool :=
  match ann with
  | RichAnnotation.NoBreakBegin | RichAnnotation.NoBreakEnd
  | RichAnnotation.RedactedBegin _ _ | RichAnnotation.RedactedEnd _ _ => true
  | _ => false
  end.

(** C3 (counterexample). An Image marker of area 1, and an audio marker,
    each on the text ["x"], go through: the Image control (resp. the Audio
    control) is emitted and no error is raised. *)
Lemma image_and_audio_markers_with_text :
  render_lines plain_map [[mkTaggedString "x" [RichAnnotation.Image "p.png" 1 1]]]
    = Some [Control.Image "p.png" 1 1]
  /\ render_lines plain_map [[mkTaggedString "x" [RichAnnotation.Custom "audio" ["a.mp3"%string]]]]
    = Some [Control.Audio "a.mp3"].
Proof. split; reflexivity. Qed.

Lemma scan_non_marker (text : string) (anns : list RichAnnotation.t) :
  forall st b, existsb marker_ann anns = false ->
  fold_left_opt (scan_ann text) anns (st, b) = Some (st, b).
Proof.
  induction anns as [|a anns IH]; intros st b H; [reflexivity|].
  simpl in H. apply Bool.orb_false_iff in H as [Ha Hrest].
  destruct a; simpl in Ha |- *; try discriminate; try (apply IH; exact Hrest).
  - (* Image *)
    unfold checked_mul.
    destruct (N.leb_spec 1 (w * h)); [discriminate|].
    destruct (N.leb_spec (w * h) usize_max); [|unfold usize_max in *; lia].
    destruct (N.leb_spec 1 (w * h)); [lia|]. apply IH. exact Hrest.
  - (* Custom *)
    rewrite Ha. apply IH. exact Hrest.
Qed.

Lemma scan_checked_marker_fails (text : string) (anns : list RichAnnotation.t) :
  text <> EmptyString -> existsb text_checked_marker anns = true ->
  forall acc, fold_left_opt (scan_ann text) anns acc = None.
Proof.
  intros Htext. induction anns as [|a anns IH]; intros H acc; [discriminate|].
  cbn [existsb] in H. destruct acc as [st b]. cbn [fold_left_opt].
  destruct (text_checked_marker a) eqn:Ha.
  - assert (Hne : String.eqb text EmptyString = false) by (apply String.eqb_neq; exact Htext).
    destruct a; try discriminate Ha; simpl; unfold assert_empty; rewrite Hne; reflexivity.
  - cbn [orb] in H. destruct (scan_ann text (st, b) a); [apply IH; exact H | reflexivity].
Qed.

Lemma render_spans_prefix_fails (map : FMap) (pre : TaggedLine) (ts : TaggedString)
    (rest : TaggedLine) :
  (forall st, render_span map st ts = None) ->
  existsb marker_span pre = false ->
  forall st, render_spans map st false (pre ++ ts :: rest) = None.
Proof.
  intros Hts. induction pre as [|p pre IH]; intros Hpre st; simpl.
  - rewrite Hts. reflexivity.
  - simpl in Hpre. apply Bool.orb_false_iff in Hpre as [Hp Hpre'].
    unfold render_span at 1. rewrite scan_non_marker by exact Hp.
    destruct (vec_last (redacted_stack st)); apply IH; exact Hpre'.
Qed.

(** C3 (amended). A span that is processed (no marker span precedes it in
    its line) whose text is non-empty and which carries NoBreakBegin,
    NoBreakEnd, RedactedBegin or RedactedEnd makes the pipeline fail;
    Image and Custom audio markers are not checked for empty text. *)
Theorem checked_marker_with_text_fails (map : FMap) (pre_lines post : list TaggedLine)
    (pre : TaggedLine) (ts : TaggedString) (rest : TaggedLine) :
  s ts <> EmptyString ->
  existsb text_checked_marker (tag ts) = true ->
  existsb marker_span pre = false ->
  render_lines map (pre_lines ++ (pre ++ ts :: rest) :: post) = None.
Proof.
  intros Htext Hmark Hpre. unfold render_lines.
  rewrite fold_left_opt_app.
  destruct (fold_left_opt (render_line map) pre_lines (mkPipelineState [] [])) as [st|];
    [|reflexivity].
  simpl. unfold render_line.
  rewrite (render_spans_prefix_fails map pre ts rest); [reflexivity | | exact Hpre].
  intros st'. unfold render_span.
  rewrite (scan_checked_marker_fails (s ts) (tag ts) Htext Hmark). reflexivity.
Qed.

Lemma checked_marker_with_text_fails_witness :
  render_lines plain_map
    ([] ++ ([mkTaggedString "a" []] ++ mkTaggedString "x" [RichAnnotation.NoBreakBegin] :: []) :: [])
  = None.
Proof.
  apply checked_marker_with_text_fails; [discriminate | reflexivity | reflexivity].
Defined.


Lemma scan_ann_spec (text : string) (st : PipelineState) (b : bool)
    (a : RichAnnotation.t) (st' : PipelineState) (b' : bool) :
  scan_ann text (st, b) a = Some (st', b') ->
  b' = b || marker_ann a
  /\ exists body, cmds st' = cmds st ++ body /\ ~ In Control.LF body.
Proof.
  intros H.
  destruct a; cbn [scan_ann marker_ann] in H |- *; unfold assert_empty, checked_mul in H;
    repeat match type of H with
    | context [if ?c then _ else _] => let E := fresh "E" in destruct c eqn:E
    | context [match ?x with _ => _ end] => let E := fresh "E" in destruct x eqn:E
    end;
    try discriminate H; injection H as <- <-;
    try rewrite Bool.orb_false_r;
    try rewrite Bool.orb_true_r;
    try match goal with E : (_ =? "audio")%string = _ |- _ => rewrite E end;
    try match goal with E : (1 <=? _) = _ |- _ => rewrite E; rewrite ?Bool.orb_false_r, ?Bool.orb_true_r end;
    (split; [reflexivity|]);
    solve [ exists []; rewrite app_nil_r; split; [reflexivity | intros []]
          | eexists [_]; split; [reflexivity | intros [Hc|[]]; discriminate Hc] ].
Qed.

Lemma scan_fold_spec (text : string) (anns : list RichAnnotation.t) :
  forall st b st' b',
  fold_left_opt (scan_ann text) anns (st, b) = Some (st', b') ->
  b' = b || existsb marker_ann anns
  /\ exists body, cmds st' = cmds st ++ body /\ ~ In Control.LF body.
Proof.
  induction anns as [|a anns IH]; intros st b st' b' H; cbn [fold_left_opt] in H.
  - injection H as <- <-. rewrite Bool.orb_false_r. split; [reflexivity|].
    exists []. rewrite app_nil_r. split; [reflexivity | intros []].
  - destruct (scan_ann text (st, b) a) as [[st1 b1]|] eqn:E; [|discriminate H].
    destruct (scan_ann_spec text st b a st1 b1 E) as [Hb1 (body1 & Hc1 & Hn1)].
    destruct (IH st1 b1 st' b' H) as [Hb2 (body2 & Hc2 & Hn2)].
    split.
    + rewrite Hb2, Hb1. cbn [existsb]. symmetry. apply Bool.orb_assoc.
    + exists (body1 ++ body2). rewrite Hc2, Hc1, app_assoc. split; [reflexivity|].
      intros Hin. apply in_app_or in Hin as [Hin|Hin]; contradiction.
Qed.

Lemma render_span_spec (map : FMap) (st : PipelineState) (ts : TaggedString)
    (st' : PipelineState) (m : bool) :
  render_span map st ts = Some (st', m) ->
  m = marker_span ts
  /\ exists body, cmds st' = cmds st ++ body /\ ~ In Control.LF body.
Proof.
  unfold render_span. intros H.
  destruct (fold_left_opt (scan_ann (s ts)) (tag ts) (st, false)) as [[st1 b1]|] eqn:E;
    [|discriminate H].
  destruct (scan_fold_spec (s ts) (tag ts) st false st1 b1 E) as [Hb (body & Hc & Hn)].
  cbn [orb] in Hb. unfold marker_span.
  destruct b1.
  - injection H as <- <-. split; [exact Hb|]. exists body. split; assumption.
  - destruct (vec_last (redacted_stack st1)) as [id|];
      injection H as <- <-; (split; [exact Hb|]);
      eexists (body ++ [_]); unfold push_cmd; cbn [cmds];
      rewrite Hc, app_assoc; (split; [reflexivity|]);
      intros Hin; apply in_app_or in Hin as [Hin|[Hin|[]]]; first [contradiction | discriminate Hin].
Qed.

Lemma render_spans_spec (map : FMap) (spans : TaggedLine) :
  forall st st' m,
  render_spans map st false spans = Some (st', m) ->
  m = existsb marker_span spans
  /\ exists body, cmds st' = cmds st ++ body /\ ~ In Control.LF body.
Proof.
  induction spans as [|ts rest IH]; intros st st' m H; cbn [render_spans] in H.
  - injection H as <- <-. split; [reflexivity|].
    exists []. rewrite app_nil_r. split; [reflexivity | intros []].
  - destruct (render_span map st ts) as [[st1 m1]|] eqn:E; [|discriminate H].
    destruct (render_span_spec map st ts st1 m1 E) as [Hm1 (body1 & Hc1 & Hn1)].
    cbn [existsb]. rewrite <- Hm1.
    destruct m1.
    + injection H as <- <-. split; [reflexivity|]. exists body1. split; assumption.
    + destruct (IH st1 st' m H) as [Hm (body2 & Hc2 & Hn2)].
      split; [exact Hm|].
      exists (body1 ++ body2). rewrite Hc2, Hc1, app_assoc. split; [reflexivity|].
      intros Hin. apply in_app_or in Hin as [Hin|Hin]; contradiction.
Qed.





(** *** The page block builder *)

(** C8 (counterexample). An Image inside a no-break section flushes the
    pending block and gets a block of its own, so the section's contents
    land in three blocks. *)
Lemma image_splits_no_break_section :
  let mid := [Control.Str "a"; Control.Image "i.png" 1 1; Control.Str "b"] in
  try_build_block ([Control.NoBreakBegin] ++ mid ++ [Control.NoBreakEnd])
    = Some [mkPageBlock [Control.Str "a"] 0; mkPageBlock [Control.Image "i.png" 1 1] 1;
            mkPageBlock [Control.Str "b"] 0]
  /\ ~ (exists blk, In blk [mkPageBlock [Control.Str "a"] 0;
                            mkPageBlock [Control.Image "i.png" 1 1] 1;
                            mkPageBlock [Control.Str "b"] 0] /\ inner blk = mid).
Proof.
  split; [reflexivity|].
  intros (blk & Hin & Heq).
  destruct Hin as [<-|[<-|[<-|[]]]]; discriminate Heq.
Qed.

(** The controls of a no-break section that keep the builder inside it. *)
Definition stays_in_section (c : Control.t) : bool :=
  match c with
  | Control.NoBreakEnd | Control.Image _ _ _ => false
  | _ => true
  end.

Lemma build_step_blocks_grow (st st' : BuilderState) (c : Control.t) :
  build_step st c = Some st' -> exists r, blocks st' = blocks st ++ r.
Proof.
  destruct st as [bs b nb]. intros H.
  destruct c; cbn [build_step] in H;
    repeat match type of H with
    | context [if ?x then _ else _] => destruct x
    | context [match ?x with _ => _ end] => destruct x
    end;
    try discriminate H; injection H as <-; cbn [blocks];
    first [ exists []; rewrite app_nil_r; reflexivity
          | eexists; reflexivity
          | eexists; rewrite <- app_assoc; reflexivity ].
Qed.

Lemma build_fold_blocks_grow (cs : list Control.t) :
  forall st st', fold_left_opt build_step cs st = Some st' ->
  exists r, blocks st' = blocks st ++ r.
Proof.
  induction cs as [|c cs IH]; intros st st' H; cbn [fold_left_opt] in H.
  - injection H as <-. exists []. rewrite app_nil_r. reflexivity.
  - destruct (build_step st c) as [st1|] eqn:E; [|discriminate H].
    destruct (build_step_blocks_grow st st1 c E) as [r1 Hr1].
    destruct (IH st1 st' H) as [r2 Hr2].
    exists (r1 ++ r2). rewrite Hr2, Hr1, app_assoc. reflexivity.
Qed.

Lemma build_fold_in_section (mid : list Control.t) :
  forallb stays_in_section mid = true ->
  forall bs b st',
  fold_left_opt build_step mid (mkBuilderState bs b true) = Some st' ->
  blocks st' = bs /\ no_break st' = true /\ inner (block st') = inner b ++ mid.
Proof.
  induction mid as [|c mid IH]; intros Hmid bs b st' H; cbn [fold_left_opt] in H.
  - injection H as <-. cbn. rewrite app_nil_r. auto.
  - cbn [forallb] in Hmid. apply Bool.andb_true_iff in Hmid as [Hc Hmid].
    destruct c; cbn [stays_in_section] in Hc; try discriminate Hc;
      cbn [build_step negb] in H; try discriminate H;
      destruct (IH Hmid _ _ _ H) as (Hbs & Hnb & Hin);
      (split; [exact Hbs|]); (split; [exact Hnb|]);
      rewrite Hin; cbn [inner block_push]; rewrite <- app_assoc; reflexivity.
Qed.

(** C8 (amended). When the controls before a [NoBreakBegin] leave the
    builder outside a no-break section, and the section up to its
    [NoBreakEnd] contains no Image control, all controls strictly between
    the two end up in one output block (a LineFeed inside the section does
    not flush). *)
Theorem no_break_section_single_block (pre mid post : list Control.t)
    (st : BuilderState) (out : list PageBlock) :
  fold_left_opt build_step pre builder_init = Some st ->
  no_break st = false ->
  forallb stays_in_section mid = true ->
  try_build_block (pre ++ [Control.NoBreakBegin] ++ mid ++ [Control.NoBreakEnd] ++ post)
    = Some out ->
  exists blk, In blk out /\ inner blk = mid.
Proof.
  intros Hpre Hnb Hmid Hrun. unfold try_build_block in Hrun.
  rewrite fold_left_opt_app, Hpre in Hrun.
  destruct st as [bs b nb]. cbn [no_break] in Hnb. subst nb.
  assert (Hst0 : exists bs0 b0,
    build_step (mkBuilderState bs b false) Control.NoBreakBegin
      = Some (mkBuilderState bs0 b0 true) /\ inner b0 = []).
  { cbn [build_step]. destruct (inner b) eqn:E.
    - exists bs, b. auto.
    - exists (bs ++ [b]), PageBlock_default. auto. }
  destruct Hst0 as (bs0 & b0 & Hstep0 & Hb0).
  cbn [app fold_left_opt] in Hrun. rewrite Hstep0 in Hrun.
  rewrite fold_left_opt_app in Hrun.
  destruct (fold_left_opt build_step mid (mkBuilderState bs0 b0 true)) as [st1|] eqn:E1;
    [|discriminate Hrun].
  destruct (build_fold_in_section mid Hmid bs0 b0 st1 E1) as (Hbs1 & Hnb1 & Hin1).
  destruct st1 as [bs1 b1 nb1]. cbn in Hbs1, Hnb1, Hin1. subst bs1 nb1.
  rewrite Hb0 in Hin1. cbn in Hin1.
  cbn [fold_left_opt build_step negb] in Hrun.
  destruct (fold_left_opt build_step post (mkBuilderState (bs0 ++ [b1]) PageBlock_default false))
    as [st2|] eqn:E2; [|discriminate Hrun].
  injection Hrun as <-.
  destruct (build_fold_blocks_grow post _ st2 E2) as [r Hr].
  exists b1. split; [|exact Hin1].
  rewrite Hr. cbn [blocks]. apply in_or_app. left. apply in_or_app. right. left. reflexivity.
Qed.

Lemma no_break_section_single_block_witness :
  exists blk,
    In blk [mkPageBlock [Control.Str "x"; Control.LF] 1;
            mkPageBlock [Control.Str "a"; Control.LF; Control.Str "b"] 1]
    /\ inner blk = [Control.Str "a"; Control.LF; Control.Str "b"].
Proof.
  eapply (no_break_section_single_block [Control.Str "x"; Control.LF]
            [Control.Str "a"; Control.LF; Control.Str "b"] []);
    reflexivity.
Defined.

(** *** [custom_render] and [just_render] *)

Lemma scan_ann_copy (text : string) (acc : PipelineState * bool) (ann : RichAnnotation.t) :
  CustomRender.scan_ann text acc ann = scan_ann text acc ann.
Proof. destruct acc as [st b]. destruct ann; reflexivity. Qed.

Lemma fold_left_opt_ext {A B} (f g : A -> B -> option A) (l : list B) :
  (forall a b, f a b = g a b) -> forall a, fold_left_opt f l a = fold_left_opt g l a.
Proof.
  intros Hfg. induction l as [|b l IH]; intros a; cbn [fold_left_opt]; [reflexivity|].
  rewrite Hfg. destruct (g a b); [apply IH | reflexivity].
Qed.

Lemma styled_string_copy (map : FMap) (ts : TaggedString) :
  CustomRender.styled_string map ts = styled_string map ts.
Proof. reflexivity. Qed.

Lemma render_span_copy (map : FMap) (st : PipelineState) (ts : TaggedString) :
  CustomRender.render_span map st ts = render_span map st ts.
Proof.
  unfold CustomRender.render_span, render_span.
  rewrite (fold_left_opt_ext _ _ _ (scan_ann_copy (s ts))), styled_string_copy.
  reflexivity.
Qed.

Lemma render_spans_copy (map : FMap) (spans : TaggedLine) :
  forall st b, CustomRender.render_spans map st b spans = render_spans map st b spans.
Proof.
  induction spans as [|ts rest IH]; intros st b; cbn [CustomRender.render_spans render_spans];
    [reflexivity|].
  rewrite render_span_copy. destruct (render_span map st ts) as [[st' m]|]; [|reflexivity].
  destruct m; [reflexivity | apply IH].
Qed.

Lemma render_line_copy (map : FMap) (st : PipelineState) (line : TaggedLine) :
  CustomRender.render_line map st line = render_line map st line.
Proof.
  unfold CustomRender.render_line, render_line. rewrite render_spans_copy. reflexivity.
Qed.

(** C10. [custom_render(input, width, map)] is [just_render(parse(input), width, map)]:
    for any parser and any text renderer, the two give the same result
    (the same controls, or both a panic). *)
Theorem custom_render_is_just_render_of_parse
    (Input RenderTree : Type) (parse : Input -> RenderTree)
    (render : RenderTree -> N -> list TaggedLine)
    (input : Input) (width : N) (map : FMap) :
  CustomRender.custom_render Input RenderTree parse render input width map
  = just_render RenderTree render (parse input) width map.
Proof.
  unfold CustomRender.custom_render, just_render, render_lines.
  rewrite (fold_left_opt_ext _ _ _ (render_line_copy map)). reflexivity.
Qed.

(** ** Further properties of the table code *)

Lemma fold_left_max_ge_acc (l : list N) (x : N) : x <= fold_left N.max l x.
Proof.
  revert x. induction l as [|y l IH]; intros x; simpl; [lia|].
  specialize (IH (N.max x y)). lia.
Qed.

Lemma fold_left_max_ge (l : list N) (x y : N) : In y l -> y <= fold_left N.max l x.
Proof.
  revert x. induction l as [|z l IH]; intros x Hin; [destruct Hin|].
  simpl. destruct Hin as [->|Hin].
  - pose proof (fold_left_max_ge_acc l (N.max x y)). lia.
  - apply IH. exact Hin.
Qed.

Lemma fold_left_max_attained (l : list N) (x : N) :
  fold_left N.max l x = x \/ In (fold_left N.max l x) l.
Proof.
  revert x. induction l as [|y l IH]; intros x; simpl; [left; reflexivity|].
  destruct (IH (N.max x y)) as [H|H].
  - rewrite H. destruct (N.max_spec x y) as [[_ ->]|[_ ->]]; [right; left | left]; reflexivity.
  - right. right. exact H.
Qed.

Lemma num_cells_spec (r : RenderTableRow) :
  num_cells r
  = if sumN (map cell_colspan (cells r)) <=? usize_max
    then Some (sumN (map cell_colspan (cells r))) else None.
Proof. apply checked_sum_spec. Qed.

Lemma map_opt_num_cells (rows : list RenderTableRow) (ns : list N) :
  map_opt num_cells rows = Some ns ->
  ns = map (fun r => sumN (map cell_colspan (cells r))) rows
  /\ forall r, In r rows -> sumN (map cell_colspan (cells r)) <= usize_max.
Proof.
  revert ns. induction rows as [|r rows IH]; intros ns H; cbn [map_opt] in H.
  - injection H as <-. split; [reflexivity | intros ? []].
  - rewrite num_cells_spec in H.
    destruct (N.leb_spec (sumN (map cell_colspan (cells r))) usize_max) as [Hr|]; [|discriminate].
    destruct (map_opt num_cells rows) as [ns'|]; [|discriminate].
    injection H as <-. destruct (IH ns' eq_refl) as [-> Hall].
    split; [reflexivity|]. intros r' [<-|Hr']; [exact Hr | exact (Hall r' Hr')].
Qed.

(** What [RenderTable::new] returns when it does not panic. *)
Lemma RenderTable_new_some (rows : list RenderTableRow) (t : RenderTable) :
  RenderTable_new rows = Some t ->
  t = MkRenderTable rows
        (match max_opt (map (fun r => sumN (map cell_colspan (cells r))) rows) with
         | Some m => m | None => 0 end)
  /\ forall r, In r rows -> sumN (map cell_colspan (cells r)) <= usize_max.
Proof.
  unfold RenderTable_new. intros H.
  destruct (map_opt num_cells rows) as [ns|] eqn:E; [|discriminate].
  destruct (map_opt_num_cells rows ns E) as [-> Hall].
  injection H as <-. split; [reflexivity | exact Hall].
Qed.

Lemma RenderTable_new_rows_fit (rows : list RenderTableRow) (t : RenderTable) :
  RenderTable_new rows = Some t ->
  forall r, In r rows -> sumN (map cell_colspan (cells r)) <= table_num_columns t.
Proof.
  intros H. destruct (RenderTable_new_some rows t H) as [-> _].
  unfold table_num_columns.
  destruct rows as [|r0 rs]; cbn [map max_opt]; [intros r []|].
  intros r [<-|Hin].
  - apply fold_left_max_ge_acc.
  - apply fold_left_max_ge. apply (in_map (fun r => sumN (map cell_colspan (cells r)))). exact Hin.
Qed.









Lemma sumN_map_concat {A} (f : A -> N) (ll : list (list A)) :
  sumN (map f (concat ll)) = sumN (map (fun l => sumN (map f l)) ll).
Proof.
  induction ll as [|l ll IH]; [reflexivity|].
  cbn [concat map]. rewrite map_app, sumN_app, sumN_cons, IH. reflexivity.
Qed.




Lemma map_opt_in {A B} (f : A -> option B) (l : list A) (l' : list B) :
  map_opt f l = Some l' ->
  (forall y, In y l' -> exists x, In x l /\ f x = Some y)
  /\ (forall x, In x l -> exists y, In y l' /\ f x = Some y).
Proof.
  revert l'. induction l as [|x l IH]; intros l' H; cbn [map_opt] in H.
  - injection H as <-. split; intros ? [].
  - destruct (f x) as [y|] eqn:Hx; [|discriminate].
    destruct (map_opt f l) as [ys|] eqn:Hl; [|discriminate].
    injection H as <-. destruct (IH ys eq_refl) as [IH1 IH2]. split.
    + intros z [<-|Hz]; [exists x; split; [left; reflexivity | exact Hx]|].
      destruct (IH1 z Hz) as (w & Hw & Hfw). exists w. split; [right; exact Hw | exact Hfw].
    + intros z [<-|Hz]; [exists y; split; [left; reflexivity | exact Hx]|].
      destruct (IH2 z Hz) as (w & Hw & Hfw). exists w. split; [right; exact Hw | exact Hfw].
Qed.



(** [RenderTable::new] panics exactly when the colspans of some row sum
    past [usize::MAX] (the [usize] sum of [num_cells] overflows). *)
Theorem RenderTable_new_overflow (rows : list RenderTableRow) :
  RenderTable_new rows = None
  <-> exists r, In r rows /\ usize_max < sumN (map cell_colspan (cells r)).
Proof.
  unfold RenderTable_new.
  destruct (map_opt num_cells rows) as [ns|] eqn:E.
  - split; [discriminate|]. intros (r & Hr & Hlt).
    destruct (map_opt_num_cells rows ns E) as [_ Hall]. specialize (Hall r Hr). lia.
  - split; [intros _|reflexivity].
    destruct (proj1 (map_opt_none num_cells rows) E) as (r & Hr & Hn).
    exists r. split; [exact Hr|]. rewrite num_cells_spec in Hn.
    destruct (N.leb_spec (sumN (map cell_colspan (cells r))) usize_max); [discriminate | exact H].
Qed.

(** When [RenderTable::new] returns, it has set [num_columns] to the widest
    row: every row's [num_cells] returns and is at most [num_columns], and
    for a table with rows some row's [num_cells] equals it. *)
Theorem RenderTable_new_num_columns (rows : list RenderTableRow) (t : RenderTable) :
  RenderTable_new rows = Some t ->
  (forall r, In r rows -> exists n, num_cells r = Some n /\ n <= table_num_columns t)
  /\ (rows <> [] -> exists r, In r rows /\ num_cells r = Some (table_num_columns t)).
Proof.
  intros Ht. pose proof (RenderTable_new_rows_fit rows t Ht) as Hfit.
  destruct (RenderTable_new_some rows t Ht) as [Heq Hall].
  split.
  - intros r Hr. exists (sumN (map cell_colspan (cells r))).
    unfold num_cells. rewrite (checked_sum_ok _ (Hall r Hr)). split; [reflexivity | exact (Hfit r Hr)].
  - subst t. unfold table_num_columns.
    destruct rows as [|r0 rs]; cbn [map max_opt]; [intros H; contradiction|].
    intros _.
    destruct (fold_left_max_attained (map (fun r => sumN (map cell_colspan (cells r))) rs)
                (sumN (map cell_colspan (cells r0)))) as [H|H].
    + exists r0. split; [left; reflexivity|]. rewrite H. unfold num_cells.
      apply checked_sum_ok, Hall. left. reflexivity.
    + apply in_map_iff in H as (r & Hr & Hin).
      exists r. split; [right; exact Hin|]. rewrite <- Hr. unfold num_cells.
      apply checked_sum_ok, Hall. right. exact Hin.
Qed.

Lemma RenderTable_new_num_columns_witness :
  RenderTable_new [MkRenderTableRow [MkRenderTableCell 2 [Text "ab"]]; MkRenderTableRow []]
    = Some (MkRenderTable [MkRenderTableRow [MkRenderTableCell 2 [Text "ab"]]; MkRenderTableRow []] 2)
  /\ (forall r, In r [MkRenderTableRow [MkRenderTableCell 2 [Text "ab"]]; MkRenderTableRow []] ->
        exists n, num_cells r = Some n
          /\ n <= table_num_columns
                 (MkRenderTable [MkRenderTableRow [MkRenderTableCell 2 [Text "ab"]]; MkRenderTableRow []] 2))
  /\ ([MkRenderTableRow [MkRenderTableCell 2 [Text "ab"]]; MkRenderTableRow []] <> [] ->
        exists r, In r [MkRenderTableRow [MkRenderTableCell 2 [Text "ab"]]; MkRenderTableRow []]
          /\ num_cells r = Some (table_num_columns
                 (MkRenderTable [MkRenderTableRow [MkRenderTableCell 2 [Text "ab"]]; MkRenderTableRow []] 2))).
Proof.
  split; [reflexivity|].
  apply RenderTable_new_num_columns. reflexivity.
Defined.



(** A table with more columns than [vec!] can allocate
    ([num_columns * size_of::<SizeEstimate>() > isize::MAX], for instance
    one cell with [colspan="576460752303423488"], that is [2^59]) makes both
    its size estimate and the column sizing of [render_table_tree] panic. *)
Theorem table_columns_capacity_overflow (rows : list RenderTableRow) (n : N) :
  isize_max < n * SizeEstimate_bytes ->
  table_get_size_estimate (MkRenderTable rows n) = None
  /\ table_col_sizes_of (MkRenderTable rows n) = None.
Proof.
  intros H. cbn [table_get_size_estimate table_col_sizes_of].
  destruct (map_opt row_cell_estimates rows) as [est|]; [|split; reflexivity].
  cbv beta iota. unfold calc_size_estimate, table_col_sizes, vec_from_elem.
  destruct (N.leb_spec (n * SizeEstimate_bytes) isize_max); [lia|]. split; reflexivity.
Qed.

Lemma table_columns_capacity_overflow_witness :
  RenderTable_new [MkRenderTableRow [MkRenderTableCell (2 ^ 59) [Text "x"]]]
    = Some (MkRenderTable [MkRenderTableRow [MkRenderTableCell (2 ^ 59) [Text "x"]]] (2 ^ 59))
  /\ isize_max < 2 ^ 59 * SizeEstimate_bytes
  /\ table_get_size_estimate (MkRenderTable [MkRenderTableRow [MkRenderTableCell (2 ^ 59) [Text "x"]]] (2 ^ 59)) = None
  /\ table_col_sizes_of (MkRenderTable [MkRenderTableRow [MkRenderTableCell (2 ^ 59) [Text "x"]]] (2 ^ 59)) = None.
Proof.
  split; [vm_compute; reflexivity|].
  split; [vm_compute; reflexivity|].
  apply table_columns_capacity_overflow. vm_compute. reflexivity.
Defined.




Lemma fold_left_opt_some_in {A B} (f : A -> B -> option A) (l : list B) :
  forall a r, fold_left_opt f l a = Some r -> forall b, In b l -> exists a', f a' b <> None.
Proof.
  induction l as [|x l IH]; intros a r H b Hb; [destruct Hb|].
  cbn [fold_left_opt] in H. destruct (f a x) as [a'|] eqn:Hf; [|discriminate].
  destruct Hb as [<-|Hb].
  - exists a. rewrite Hf. discriminate.
  - exact (IH a' r H b Hb).
Qed.

(** A cell with [colspan] 0 anywhere in a table makes the column sizing of
    [render_table_tree] panic: [estimate.size /= cell.colspan] divides by
    zero. *)
Theorem col_sizes_colspan_zero (rows : list RenderTableRow) (n : N)
    (r : RenderTableRow) (content : list RenderNode) :
  In r rows -> In (MkRenderTableCell 0 content) (cells r) ->
  table_col_sizes_of (MkRenderTable rows n) = None.
Proof.
  intros Hr Hc. cbn [table_col_sizes_of].
  destruct (map_opt row_cell_estimates rows) as [est|] eqn:Hest; [|reflexivity].
  cbv beta iota.
  destruct (table_col_sizes n est) as [cs|] eqn:Hcs; [exfalso|reflexivity].
  destruct (proj2 (map_opt_in _ _ _ Hest) r Hr) as (er & Her & Hre).
  destruct r as [cells0]. cbn [row_cell_estimates cells] in Hre, Hc.
  destruct (proj2 (map_opt_in _ _ _ Hre) _ Hc) as (ce & Hce & Hfe).
  cbn [cell_colspan] in Hfe.
  destruct (cell_get_size_estimate (MkRenderTableCell 0 content)) as [e|]; cbn in Hfe; [|discriminate].
  injection Hfe as <-.
  unfold table_col_sizes in Hcs.
  destruct (vec_from_elem SizeEstimate_bytes SizeEstimate_default n) as [cs0|]; [|discriminate Hcs].
  destruct (fold_left_opt_some_in _ _ _ _ Hcs er Her) as (a & Ha).
  unfold col_sizes_row in Ha.
  destruct (fold_left_opt col_sizes_cell er (a, 0)) as [p|] eqn:Hrow; [|apply Ha; reflexivity].
  destruct (fold_left_opt_some_in _ _ _ _ Hrow (0, e) Hce) as ([x colno] & Hx).
  apply Hx. reflexivity.
Qed.

Lemma col_sizes_colspan_zero_witness :
  In (MkRenderTableRow [MkRenderTableCell 0 [Text "x"]]) [MkRenderTableRow [MkRenderTableCell 0 [Text "x"]]]
  /\ In (MkRenderTableCell 0 [Text "x"]) (cells (MkRenderTableRow [MkRenderTableCell 0 [Text "x"]]))
  /\ table_col_sizes_of (MkRenderTable [MkRenderTableRow [MkRenderTableCell 0 [Text "x"]]] 0) = None.
Proof.
  split; [left; reflexivity|]. split; [left; reflexivity|].
  apply (col_sizes_colspan_zero _ 0 (MkRenderTableRow [MkRenderTableCell 0 [Text "x"]]) [Text "x"]);
    left; reflexivity.
Defined.

(** *** The layout solver *)

Lemma nth_replace {A} (l : list A) (i j : nat) (y d : A) :
  (i < length l)%nat ->
  nth j (firstn i l ++ y :: skipn (S i) l) d = if Nat.eqb j i then y else nth j l d.
Proof.
  revert i j. induction l as [|x l IH]; intros i j Hi; cbn [length] in Hi; [lia|].
  destruct i as [|i], j as [|j]; cbn [firstn skipn app nth Nat.eqb]; try reflexivity.
  apply IH. lia.
Qed.

Lemma reduce_loop_shape (width : N) (cs : list SizeEstimate) (fuel : nat) :
  forall ws ws', length ws = length cs -> reduce_loop fuel width cs ws = Some ws' ->
  length ws' = length ws /\ forall j, nth j ws' 0 <= nth j ws 0.
Proof.
  induction fuel as [|fuel IH]; intros ws ws' Hlen Hrun; cbn [reduce_loop] in Hrun;
    destruct (N.leb_spec (sumN ws) width) as [Hle|Hgt].
  - injection Hrun as <-. split; [reflexivity | intros; lia].
  - discriminate.
  - injection Hrun as <-. split; [reflexivity | intros; lia].
  - destruct (reduce_step_spec cs ws Hlen) as (i & Hi & Hwi & Hstep & _); [lia|].
    rewrite Hstep in Hrun. cbv beta iota in Hrun.
    destruct (IH _ ws' (eq_trans (length_replace_nth ws i _ Hi) Hlen) Hrun) as [H1 H2].
    split.
    + rewrite H1. apply length_replace_nth. exact Hi.
    + intros j. specialize (H2 j). rewrite nth_replace in H2 by exact Hi.
      destruct (Nat.eqb_spec j i) as [Heq|Hne]; [subst i; lia | lia].
Qed.

Lemma exists_above_min (cs : list SizeEstimate) :
  forall ws, length ws = length cs ->
  (forall j, min_width (nth j cs SizeEstimate_default) <= nth j ws 0) ->
  sumN (map min_width cs) < sumN ws ->
  exists j, (j < length ws)%nat /\ min_width (nth j cs SizeEstimate_default) < nth j ws 0.
Proof.
  induction cs as [|c cs IH]; intros ws Hlen Hge Hlt.
  - destruct ws; [|discriminate]. cbn in Hlt. lia.
  - destruct ws as [|w ws]; [discriminate|]. cbn [map] in Hlt. rewrite !sumN_cons in Hlt.
    pose proof (Hge O) as H0. cbn [nth] in H0.
    destruct (N.ltb_spec (min_width c) w).
    + exists O. split; [cbn; lia | exact H].
    + destruct (IH ws) as (j & Hj & Hmj).
      * cbn in Hlen. lia.
      * intros j. exact (Hge (S j)).
      * lia.
      * exists (S j). split; [cbn; lia | exact Hmj].
Qed.

Lemma reduce_loop_min (width : N) (cs : list SizeEstimate) (fuel : nat) :
  sumN (map min_width cs) <= width ->
  forall ws ws', length ws = length cs ->
  (forall j, min_width (nth j cs SizeEstimate_default) <= nth j ws 0) ->
  reduce_loop fuel width cs ws = Some ws' ->
  forall j, min_width (nth j cs SizeEstimate_default) <= nth j ws' 0.
Proof.
  intros Hmin. induction fuel as [|fuel IH]; intros ws ws' Hlen Hge Hrun;
    cbn [reduce_loop] in Hrun; destruct (N.leb_spec (sumN ws) width) as [Hle|Hgt].
  - injection Hrun as <-. exact Hge.
  - discriminate.
  - injection Hrun as <-. exact Hge.
  - destruct (reduce_step_spec cs ws Hlen) as (i & Hi & Hwi & Hstep & Hall); [lia|].
    rewrite Hstep in Hrun. cbv beta iota in Hrun.
    apply (IH _ ws' (eq_trans (length_replace_nth ws i (nth i ws 0 - 1) Hi) Hlen)); [|exact Hrun].
    destruct (exists_above_min cs ws Hlen Hge) as (j & Hj & Hmj); [lia|].
    specialize (Hall j Hj). unfold keyf in Hall.
    intros k. rewrite nth_replace by exact Hi.
    destruct (Nat.eqb_spec k i) as [->|]; [key_lia | apply Hge].
Qed.

(** The widths right after the loop, with their length, sum and bound by
    the initial allocation. *)
Lemma widths_after_loop_ok (width : N) (cs : list SizeEstimate) (ws0 : list N) :
  initial_col_widths width cs = Some ws0 -> sumN ws0 <= usize_max ->
  exists ws, widths_after_loop width cs = Some ws
    /\ length ws = length cs
    /\ sumN ws = N.min (sumN ws0) width
    /\ forall j, nth j ws 0 <= nth j ws0 0.
Proof.
  intros H0 Hs.
  pose proof (initial_col_widths_length width cs ws0 H0) as Hlen.
  unfold widths_after_loop. rewrite H0. cbv beta iota.
  rewrite (checked_sum_ok ws0 Hs). cbv beta iota.
  destruct (reduce_loop_spec width cs (N.to_nat (sumN ws0)) ws0 Hlen) as (ws & Hrun & Hsum);
    [rewrite N2Nat.id; lia|].
  destruct (reduce_loop_shape width cs _ _ _ Hlen Hrun) as [H1 H2].
  exists ws. split; [exact Hrun|]. split; [congruence|]. split; assumption.
Qed.

(** The initial allocation [sz.size * width / tot_size] panics exactly
    when, for some column, the product [sz.size * width] overflows
    [usize]. *)
Theorem initial_col_widths_overflow (width : N) (cs : list SizeEstimate) :
  initial_col_widths width cs = None <-> exists c, In c cs /\ usize_max < size c * width.
Proof.
  unfold initial_col_widths. rewrite map_opt_none.
  split; intros (c & Hc & H); exists c; split; try exact Hc.
  - rewrite initial_col_width_spec in H.
    destruct (N.leb_spec (size c * width) usize_max); [discriminate | exact H0].
  - rewrite initial_col_width_spec.
    destruct (N.leb_spec (size c * width) usize_max); [lia | reflexivity].
Qed.

(** The loop only narrows: right after it there is one width per column,
    none wider than its initial allocation, and a column with size 0
    (initial width 0) still has width 0.  The loop is reached when the
    initial widths and their sum are computed without overflow. *)
Theorem widths_after_loop_narrow (width : N) (cs : list SizeEstimate) (ws0 : list N) :
  initial_col_widths width cs = Some ws0 -> sumN ws0 <= usize_max ->
  exists ws, widths_after_loop width cs = Some ws
    /\ length ws = length cs
    /\ (forall j, nth j ws 0 <= nth j ws0 0)
    /\ (forall j, size (nth j cs SizeEstimate_default) = 0 -> nth j ws 0 = 0).
Proof.
  intros H0 Hs.
  destruct (widths_after_loop_ok width cs ws0 H0 Hs) as (ws & Hrun & Hlen & _ & Hle).
  exists ws. split; [exact Hrun|]. split; [exact Hlen|]. split; [exact Hle|].
  intros j Hj. specialize (Hle j). rewrite (initial_col_widths_nth width cs ws0 j H0), Hj in Hle.
  cbn in Hle. lia.
Qed.

Lemma widths_after_loop_narrow_witness :
  initial_col_widths 10 [mkSizeEstimate 3 2; mkSizeEstimate 0 0; mkSizeEstimate 1 5] = Some [7; 0; 5]
  /\ sumN [7; 0; 5] <= usize_max
  /\ exists ws, widths_after_loop 10 [mkSizeEstimate 3 2; mkSizeEstimate 0 0; mkSizeEstimate 1 5] = Some ws
    /\ length ws = length [mkSizeEstimate 3 2; mkSizeEstimate 0 0; mkSizeEstimate 1 5]
    /\ (forall j, nth j ws 0 <= nth j [7; 0; 5] 0)
    /\ (forall j, size (nth j [mkSizeEstimate 3 2; mkSizeEstimate 0 0; mkSizeEstimate 1 5] SizeEstimate_default) = 0
                  -> nth j ws 0 = 0).
Proof.
  split; [reflexivity|]. split; [vm_compute; discriminate|].
  apply widths_after_loop_narrow; [reflexivity | vm_compute; discriminate].
Defined.

(** When every column has content, the minimum widths fit in the target
    and the loop is reached (no overflow), no column ends up below its
    [min_width]. *)
Theorem widths_keep_min_widths (width : N) (cs : list SizeEstimate) (ws0 : list N) :
  initial_col_widths width cs = Some ws0 -> sumN ws0 <= usize_max ->
  (forall c, In c cs -> size c <> 0) -> sumN (map min_width cs) <= width ->
  exists ws, widths_after_loop width cs = Some ws
    /\ forall j, (j < length cs)%nat -> min_width (nth j cs SizeEstimate_default) <= nth j ws 0.
Proof.
  intros H0 Hs Hsize Hmin.
  pose proof (initial_col_widths_length width cs ws0 H0) as Hlen.
  destruct (widths_after_loop_ok width cs ws0 H0 Hs) as (ws & Hrun & _ & _ & _).
  exists ws. split; [exact Hrun|]. intros j _.
  unfold widths_after_loop in Hrun. rewrite H0, (checked_sum_ok ws0 Hs) in Hrun.
  cbv beta iota in Hrun.
  apply (reduce_loop_min width cs _ Hmin _ _ Hlen) with (j := j) in Hrun; [exact Hrun|].
  intros k. rewrite (initial_col_widths_nth width cs ws0 k H0).
  destruct (Nat.ltb_spec k (length cs)) as [Hk|Hk].
  - assert (Hs' : size (nth k cs SizeEstimate_default) <> 0) by (apply Hsize, nth_In, Hk).
    destruct (N.eqb_spec (size (nth k cs SizeEstimate_default)) 0); [contradiction | lia].
  - rewrite nth_overflow by exact Hk. cbn. lia.
Qed.

Lemma widths_keep_min_widths_witness :
  initial_col_widths 12 [mkSizeEstimate 10 5; mkSizeEstimate 1 5] = Some [10; 5]
  /\ sumN [10; 5] <= usize_max
  /\ (forall c, In c [mkSizeEstimate 10 5; mkSizeEstimate 1 5] -> size c <> 0)
  /\ sumN (map min_width [mkSizeEstimate 10 5; mkSizeEstimate 1 5]) <= 12
  /\ exists ws, widths_after_loop 12 [mkSizeEstimate 10 5; mkSizeEstimate 1 5] = Some ws
       /\ forall j, (j < length [mkSizeEstimate 10 5; mkSizeEstimate 1 5])%nat ->
            min_width (nth j [mkSizeEstimate 10 5; mkSizeEstimate 1 5] SizeEstimate_default) <= nth j ws 0.
Proof.
  assert (H : forall c, In c [mkSizeEstimate 10 5; mkSizeEstimate 1 5] -> size c <> 0)
    by (intros c [<-|[<-|[]]]; discriminate).
  split; [reflexivity|]. split; [vm_compute; discriminate|].
  split; [exact H|]. split; [vm_compute; discriminate|].
  apply (widths_keep_min_widths 12 [mkSizeEstimate 10 5; mkSizeEstimate 1 5] [10; 5]);
    [reflexivity | vm_compute; discriminate | exact H | vm_compute; discriminate].
Defined.

Lemma sumN_replace_inc (ws : list N) (i : nat) :
  (i < length ws)%nat ->
  sumN (firstn i ws ++ (nth i ws 0 + 1) :: skipn (S i) ws) = sumN ws + 1.
Proof.
  intros Hi.
  assert (Hs : sumN ws = sumN (firstn i ws ++ nth i ws 0 :: skipn (S i) ws))
    by (f_equal; apply split_at_nth; exact Hi).
  rewrite sumN_app, sumN_cons in Hs.
  rewrite sumN_app, sumN_cons. lia.
Qed.

Lemma nth_le_sumN (ws : list N) (i : nat) : nth i ws 0 <= sumN ws.
Proof.
  revert i. induction ws as [|w ws IH]; intros i; [destruct i; cbn; lia|].
  rewrite sumN_cons. destruct i as [|i]; cbn [nth]; [lia|]. specialize (IH i). lia.
Qed.

(** The final column widths, for a target width below [usize::MAX] and a
    loop reached without overflow: one per column, summing to the smaller
    of the initial allocation's sum and the target, plus the free cell
    given to the last column; no widths for a table without columns. *)
Theorem table_col_widths_sum (width : N) (cs : list SizeEstimate) (ws0 : list N) :
  initial_col_widths width cs = Some ws0 -> sumN ws0 <= usize_max -> width < usize_max ->
  exists ws, table_col_widths width cs = Some ws
    /\ length ws = length cs
    /\ sumN ws = match cs with
                 | [] => 0
                 | _ => N.min (sumN ws0) width + 1
                 end.
Proof.
  intros H0 Hs Hw.
  destruct (widths_after_loop_ok width cs ws0 H0 Hs) as (ws & Hrun & Hlen & Hsum & _).
  unfold table_col_widths. rewrite Hrun. cbv beta iota.
  destruct ws as [|w ws'] eqn:Hws.
  - destruct cs; [|discriminate]. exists []. split; [reflexivity|]. split; reflexivity.
  - rewrite <- Hws in *.
    assert (Hi : (length ws - 1 < length ws)%nat) by (subst ws; cbn; lia).
    assert (Hlast : nth (length ws - 1) ws 0 + 1 <= usize_max)
      by (pose proof (nth_le_sumN ws (length ws - 1)); lia).
    assert (Hadd : checked_add (nth (length ws - 1) ws 0) 1 = Some (nth (length ws - 1) ws 0 + 1))
      by (unfold checked_add; destruct (N.leb_spec (nth (length ws - 1) ws 0 + 1) usize_max); [reflexivity | lia]).
    rewrite (update_nth_some ws (length ws - 1) (fun w => checked_add w 1) 0 _ Hi Hadd).
    eexists. split; [reflexivity|]. split.
    + rewrite length_replace_nth by exact Hi. exact Hlen.
    + rewrite sumN_replace_inc by exact Hi. rewrite Hsum.
      destruct cs; [subst ws; discriminate | reflexivity].
Qed.

Lemma table_col_widths_sum_witness :
  initial_col_widths 20 [mkSizeEstimate 1 5; mkSizeEstimate 1 5; mkSizeEstimate 1 5] = Some [6; 6; 6]
  /\ sumN [6; 6; 6] <= usize_max /\ 20 < usize_max
  /\ exists ws, table_col_widths 20 [mkSizeEstimate 1 5; mkSizeEstimate 1 5; mkSizeEstimate 1 5] = Some ws
    /\ length ws = length [mkSizeEstimate 1 5; mkSizeEstimate 1 5; mkSizeEstimate 1 5]
    /\ sumN ws = match [mkSizeEstimate 1 5; mkSizeEstimate 1 5; mkSizeEstimate 1 5] with
                 | [] => 0
                 | _ => N.min (sumN [6; 6; 6]) 20 + 1
                 end.
Proof.
  split; [reflexivity|]. split; [vm_compute; discriminate|]. split; [vm_compute; reflexivity|].
  apply (table_col_widths_sum 20 [mkSizeEstimate 1 5; mkSizeEstimate 1 5; mkSizeEstimate 1 5] [6; 6; 6]);
    [reflexivity | vm_compute; discriminate | vm_compute; reflexivity].
Defined.

(** *** Rendering the rows *)

Lemma cell_columns_fold (cs : list RenderTableCell) :
  forall acc colno, colno + sumN (map cell_colspan cs) <= usize_max ->
  fold_left_opt
    (fun (acc : list (N * RenderTableCell) * N) cell =>
       let (result, colno) := acc in
       let* colno' := checked_add colno (cell_colspan cell) in
       Some ((colno, cell) :: result, colno'))
    cs (acc, colno)
  = Some (rev (columns_from colno cs) ++ acc, colno + sumN (map cell_colspan cs)).
Proof.
  induction cs as [|c cs IH]; intros acc colno H.
  - cbn. rewrite N.add_0_r. reflexivity.
  - cbn [map] in H |- *. rewrite sumN_cons in H |- *.
    cbn [fold_left_opt]. unfold checked_add at 1.
    destruct (N.leb_spec (colno + cell_colspan c) usize_max); [|lia]. cbv beta iota.
    rewrite IH by lia. cbn [columns_from rev]. rewrite <- app_assoc, N.add_assoc. reflexivity.
Qed.

Lemma cell_columns_from0 (r : RenderTableRow) :
  sumN (map cell_colspan (cells r)) <= usize_max ->
  cell_columns r = Some (columns_from 0 (cells r)).
Proof.
  intros H. unfold cell_columns. rewrite cell_columns_fold by (rewrite N.add_0_l; exact H).
  cbn [fst]. rewrite app_nil_r, rev_involutive. reflexivity.
Qed.

Lemma firstn_add_split {A} (a b : nat) (l : list A) :
  firstn (a + b) l = firstn a l ++ firstn b (skipn a l).
Proof.
  revert l. induction a as [|a IH]; intros l; [reflexivity|].
  destruct l as [|x l]; cbn [firstn skipn app Nat.add]; [destruct b; reflexivity|].
  f_equal. apply IH.
Qed.

Lemma sumN_firstn_le (n : nat) (l : list N) : sumN (firstn n l) <= sumN l.
Proof. rewrite <- (firstn_skipn n l) at 2. rewrite sumN_app. lia. Qed.

Lemma sumN_skipn_le (n : nat) (l : list N) : sumN (skipn n l) <= sumN l.
Proof. rewrite <- (firstn_skipn n l) at 2. rewrite sumN_app. lia. Qed.

Lemma columns_widths_ok (ws : list N) (cs : list RenderTableCell) :
  sumN ws <= usize_max ->
  forall colno, colno + sumN (map cell_colspan cs) <= N.of_nat (length ws) ->
  colno + sumN (map cell_colspan cs) <= usize_max ->
  exists cw, map_opt (cell_col_width ws) (columns_from colno cs) = Some cw
    /\ map snd cw = cs
    /\ sumN (map fst cw)
       = sumN (firstn (N.to_nat (sumN (map cell_colspan cs))) (skipn (N.to_nat colno) ws)).
Proof.
  intros Hws. induction cs as [|c cs IH]; intros colno H Hmax.
  - exists []. split; [reflexivity|]. split; [reflexivity|]. reflexivity.
  - cbn [map] in H, Hmax |- *. rewrite sumN_cons in H, Hmax |- *.
    destruct (IH (colno + cell_colspan c)) as (cw & H1 & H2 & H3); [lia | lia |].
    cbn [columns_from map_opt]. unfold cell_col_width at 1. unfold checked_add.
    destruct (N.leb_spec (colno + cell_colspan c) usize_max); [|lia]. cbv beta iota.
    unfold slice_sum.
    destruct (N.leb_spec colno (colno + cell_colspan c)); [|lia].
    destruct (N.leb_spec (colno + cell_colspan c) (N.of_nat (length ws))); [|lia].
    cbn [andb].
    rewrite checked_sum_ok
      by (pose proof (sumN_firstn_le (N.to_nat (colno + cell_colspan c - colno)) (skipn (N.to_nat colno) ws));
          pose proof (sumN_skipn_le (N.to_nat colno) ws); lia).
    cbv beta iota. fold (cell_col_width ws). rewrite H1.
    eexists. split; [reflexivity|]. split; [cbn [map snd]; f_equal; exact H2|].
    cbn [map fst]. rewrite sumN_cons, H3.
    replace (colno + cell_colspan c - colno) with (cell_colspan c) by lia.
    rewrite (N2Nat.inj_add (cell_colspan c)), firstn_add_split, sumN_app, skipn_skipn.
    replace (N.to_nat (colno + cell_colspan c)) with (N.to_nat (cell_colspan c) + N.to_nat colno)%nat by lia.
    reflexivity.
Qed.

(** When the [col_widths] cover every column of a table built by
    [RenderTable::new] and their sum fits in [usize], rendering any of its
    rows never slices out of range or overflows: each cell in order gets
    the sum [col_width] of the widths of the columns it spans, these sums
    add up to the widths of the row's first [num_cells] columns, and a
    sub-renderer of width [col_width - 1] is made for each cell whose
    [col_width] exceeds 1. *)
Theorem new_table_rows_sub_widths (rows : list RenderTableRow) (t : RenderTable) (col_widths : list N) :
  RenderTable_new rows = Some t ->
  length col_widths = N.to_nat (table_num_columns t) ->
  sumN col_widths <= usize_max ->
  forall r, In r rows ->
  exists cw, row_sub_widths col_widths r
             = Some (flat_map (fun '(w, cell) => if 1 <? w then [(w - 1, cell)] else []) cw)
    /\ map snd cw = cells r
    /\ sumN (map fst cw) = sumN (firstn (N.to_nat (sumN (map cell_colspan (cells r)))) col_widths).
Proof.
  intros Ht Hlen Hws r Hr.
  pose proof (RenderTable_new_rows_fit rows t Ht r Hr) as Hfit.
  destruct (RenderTable_new_some rows t Ht) as [_ Hall].
  destruct (columns_widths_ok col_widths (cells r) Hws 0) as (cw & H1 & H2 & H3).
  - rewrite Hlen, N2Nat.id. lia.
  - rewrite N.add_0_l. exact (Hall r Hr).
  - exists cw. unfold row_sub_widths. rewrite (cell_columns_from0 r (Hall r Hr)).
    cbv beta iota. rewrite H1.
    split; [reflexivity|]. split; [exact H2|]. rewrite H3. reflexivity.
Qed.

Lemma new_table_rows_sub_widths_witness :
  RenderTable_new
    [MkRenderTableRow [MkRenderTableCell 2 [Text "12"]; MkRenderTableCell 1 [Text "3"]];
     MkRenderTableRow [MkRenderTableCell 1 [Text "1"]]]
  = Some (MkRenderTable
    [MkRenderTableRow [MkRenderTableCell 2 [Text "12"]; MkRenderTableCell 1 [Text "3"]];
     MkRenderTableRow [MkRenderTableCell 1 [Text "1"]]] 3)
  /\ length [4; 4; 5] = N.to_nat (table_num_columns (MkRenderTable
    [MkRenderTableRow [MkRenderTableCell 2 [Text "12"]; MkRenderTableCell 1 [Text "3"]];
     MkRenderTableRow [MkRenderTableCell 1 [Text "1"]]] 3))
  /\ sumN [4; 4; 5] <= usize_max
  /\ In (MkRenderTableRow [MkRenderTableCell 2 [Text "12"]; MkRenderTableCell 1 [Text "3"]])
        [MkRenderTableRow [MkRenderTableCell 2 [Text "12"]; MkRenderTableCell 1 [Text "3"]];
         MkRenderTableRow [MkRenderTableCell 1 [Text "1"]]]
  /\ exists cw, row_sub_widths [4; 4; 5]
                  (MkRenderTableRow [MkRenderTableCell 2 [Text "12"]; MkRenderTableCell 1 [Text "3"]])
             = Some (flat_map (fun '(w, cell) => if 1 <? w then [(w - 1, cell)] else []) cw)
    /\ map snd cw = cells (MkRenderTableRow [MkRenderTableCell 2 [Text "12"]; MkRenderTableCell 1 [Text "3"]])
    /\ sumN (map fst cw)
       = sumN (firstn (N.to_nat (sumN (map cell_colspan
                 (cells (MkRenderTableRow [MkRenderTableCell 2 [Text "12"]; MkRenderTableCell 1 [Text "3"]])))))
                 [4; 4; 5]).
Proof.
  split; [reflexivity|]. split; [reflexivity|]. split; [vm_compute; discriminate|].
  split; [left; reflexivity|].
  apply (new_table_rows_sub_widths
           [MkRenderTableRow [MkRenderTableCell 2 [Text "12"]; MkRenderTableCell 1 [Text "3"]];
            MkRenderTableRow [MkRenderTableCell 1 [Text "1"]]]
           (MkRenderTable
              [MkRenderTableRow [MkRenderTableCell 2 [Text "12"]; MkRenderTableCell 1 [Text "3"]];
               MkRenderTableRow [MkRenderTableCell 1 [Text "1"]]] 3) [4; 4; 5]);
    [reflexivity | reflexivity | vm_compute; discriminate | left; reflexivity].
Defined.

(** *** The page block builder *)

Lemma concat_map_inner_snoc (bs : list PageBlock) (b : PageBlock) :
  concat (map inner (bs ++ [b])) = concat (map inner bs) ++ inner b.
Proof. rewrite map_app, concat_app. cbn. rewrite app_nil_r. reflexivity. Qed.

Lemma build_step_contents (st st' : BuilderState) (c : Control.t) :
  build_step st c = Some st' ->
  builder_contents st' = builder_contents st ++ (if kept_in_block c then [c] else []).
Proof.
  destruct st as [bs b nb]. unfold builder_contents.
  destruct c; cbn [build_step kept_in_block]; intros H;
    try discriminate;
    try (injection H as <-; cbn [blocks block inner block_push]; rewrite app_assoc; reflexivity).
  - (* NoBreakBegin *)
    destruct nb; [discriminate|]. destruct (inner b) as [|x xs] eqn:Hb;
      injection H as <-; cbn [blocks block inner PageBlock_default].
    + rewrite Hb, !app_nil_r. reflexivity.
    + rewrite concat_map_inner_snoc, Hb, !app_nil_r. reflexivity.
  - (* NoBreakEnd *)
    destruct nb; [|discriminate]. injection H as <-; cbn [blocks block inner PageBlock_default].
    rewrite concat_map_inner_snoc, !app_nil_r. reflexivity.
  - (* Image *)
    destruct (inner b) as [|x xs] eqn:Hb; injection H as <-; cbn [blocks block inner PageBlock_default].
    + rewrite concat_map_inner_snoc, !app_nil_r. cbn [inner]. rewrite app_assoc. reflexivity.
    + rewrite !concat_map_inner_snoc, Hb. cbn [inner app]. rewrite !app_nil_r, <- app_assoc. reflexivity.
  - (* LF *)
    destruct nb; injection H as <-; cbn [negb blocks block inner PageBlock_default].
    + rewrite app_assoc. reflexivity.
    + rewrite concat_map_inner_snoc, !app_nil_r. cbn [inner]. rewrite app_assoc. reflexivity.
Qed.

Lemma build_fold_contents (cs : list Control.t) :
  forall st st', fold_left_opt build_step cs st = Some st' ->
  builder_contents st' = builder_contents st ++ filter kept_in_block cs.
Proof.
  induction cs as [|c cs IH]; intros st st' H; cbn [fold_left_opt] in H.
  - injection H as <-. rewrite app_nil_r. reflexivity.
  - destruct (build_step st c) as [st1|] eqn:Hs; [|discriminate].
    rewrite (IH st1 st' H), (build_step_contents st st1 c Hs).
    cbn [filter]. destruct (kept_in_block c); rewrite <- app_assoc; reflexivity.
Qed.

Lemma sumN_snoc (l : list N) (x : N) : sumN (l ++ [x]) = sumN l + x.
Proof. rewrite sumN_app, sumN_cons. change (sumN []) with 0. lia. Qed.

Lemma height_ok_push (b : PageBlock) (c : Control.t) (h : N) :
  height_ok b -> h = control_height c -> height_ok (mkPageBlock (inner b ++ [c]) (height b + h)).
Proof. unfold height_ok. intros Hb ->. cbn [inner height]. rewrite map_app. cbn [map]. rewrite sumN_snoc. lia. Qed.

Lemma build_step_heights (st st' : BuilderState) (c : Control.t) :
  Forall height_ok (blocks st) -> height_ok (block st) ->
  build_step st c = Some st' ->
  Forall height_ok (blocks st') /\ height_ok (block st').
Proof.
  destruct st as [bs b nb]. cbn [blocks block].
  intros Hbs Hb.
  assert (Hd : height_ok PageBlock_default) by reflexivity.
  assert (Hsnoc : forall x, height_ok x -> Forall height_ok (bs ++ [x]))
    by (intros x Hx; apply Forall_app; split; [exact Hbs | constructor; [exact Hx | constructor]]).
  assert (Hpush : forall c, control_height c = 0 -> height_ok (block_push b c)).
  { intros c0 H0. unfold block_push. rewrite <- (N.add_0_r (height b)).
    apply height_ok_push; [exact Hb | symmetry; exact H0]. }
  destruct c; cbn [build_step]; intros H; try discriminate;
    try (injection H as <-; cbn [blocks block]; split; [exact Hbs | apply Hpush; reflexivity]).
  - destruct nb; [discriminate|]. destruct (inner b) eqn:Hi; injection H as <-;
      cbn [blocks block]; split; first [exact Hb | exact Hd | exact Hbs | apply Hsnoc; exact Hb].
  - destruct nb; [|discriminate]. injection H as <-; cbn [blocks block].
    split; [apply Hsnoc; exact Hb | exact Hd].
  - destruct (inner b) eqn:Hi; injection H as <-; cbn [blocks block]; (split; [|exact Hd]).
    + apply Hsnoc. apply height_ok_push; [exact Hb | reflexivity].
    + rewrite <- app_assoc. apply Forall_app. split; [exact Hbs|].
      constructor; [exact Hb|]. constructor; [|constructor].
      rewrite <- (N.add_0_l h). apply (height_ok_push PageBlock_default); [exact Hd | reflexivity].
  - destruct nb; injection H as <-; cbn [negb blocks block].
    + split; [exact Hbs|]. apply height_ok_push; [exact Hb | reflexivity].
    + split; [apply Hsnoc | exact Hd]. apply height_ok_push; [exact Hb | reflexivity].
Qed.

Lemma build_fold_heights (cs : list Control.t) :
  forall st st', Forall height_ok (blocks st) -> height_ok (block st) ->
  fold_left_opt build_step cs st = Some st' ->
  Forall height_ok (blocks st') /\ height_ok (block st').
Proof.
  induction cs as [|c cs IH]; intros st st' Hbs Hb H; cbn [fold_left_opt] in H.
  - injection H as <-. split; assumption.
  - destruct (build_step st c) as [st1|] eqn:Hs; [|discriminate].
    destruct (build_step_heights st st1 c Hbs Hb Hs) as [H1 H2].
    exact (IH st1 st' H1 H2 H).
Qed.

Lemma build_fold_ok (cs : list Control.t) :
  forall st, fold_left_opt build_step cs st <> None <-> sections_ok (no_break st) cs = true.
Proof.
  induction cs as [|c cs IH]; intros st.
  - split; [reflexivity | discriminate].
  - destruct st as [bs b nb]. cbn [no_break].
    destruct c; destruct nb; cbn [build_step sections_ok negb andb fold_left_opt];
      try (destruct (inner b));
      first [ exact (IH _) | split; [intros Hn; exfalso; apply Hn; reflexivity | discriminate] ].
Qed.

Lemma build_step_flushes (st st' : BuilderState) (c : Control.t) :
  build_step st c = Some st' ->
  match c with Control.Image _ _ _ | Control.NoBreakEnd => True | _ => False end ->
  block st' = PageBlock_default.
Proof.
  destruct st as [bs b nb]. intros H Hc.
  destruct c; try contradiction; cbn [build_step] in H.
  - destruct nb; [|discriminate]. injection H as <-. reflexivity.
  - destruct (inner b); injection H as <-; reflexivity.
Qed.

(** [try_build_block] panics exactly when a control hits one of its
    [unreachable!()] arms ([Default], [RedactedBegin], [RedactedEnd]), a
    [NoBreakBegin] comes inside a no-break section, or a [NoBreakEnd]
    outside one; a section still open at the end is no error. *)
Theorem try_build_block_ok (controls : list Control.t) :
  try_build_block controls <> None <-> sections_ok false controls = true.
Proof.
  unfold try_build_block. rewrite <- (build_fold_ok controls builder_init).
  destruct (fold_left_opt build_step controls builder_init); split; intros H;
    first [discriminate | contradiction H; reflexivity | exact H].
Qed.

(** What [try_build_block] returns: the blocks hold the controls in order,
    without the no-break markers, up to the last block still pending (which
    is dropped); nothing is dropped when the last control is an [Image] or a
    [NoBreakEnd]; and the height of each block is the number of its line
    feeds plus the heights of its images. *)
Theorem try_build_block_blocks (controls : list Control.t) (bs : list PageBlock) :
  try_build_block controls = Some bs ->
  (exists pending, concat (map inner bs) ++ pending = filter kept_in_block controls)
  /\ (forall pre c, controls = pre ++ [c] ->
        match c with Control.Image _ _ _ | Control.NoBreakEnd => True | _ => False end ->
        concat (map inner bs) = filter kept_in_block controls)
  /\ Forall (fun b => height b = sumN (map control_height (inner b))) bs.
Proof.
  unfold try_build_block. intros H.
  destruct (fold_left_opt build_step controls builder_init) as [st|] eqn:Hrun; [|discriminate].
  injection H as <-.
  pose proof (build_fold_contents controls builder_init st Hrun) as Hc.
  unfold builder_contents in Hc. cbn [blocks block inner builder_init PageBlock_default map concat app] in Hc.
  split; [|split].
  - exists (inner (block st)). exact Hc.
  - intros pre c -> Hk.
    rewrite fold_left_opt_app in Hrun.
    destruct (fold_left_opt build_step pre builder_init) as [st1|]; [|discriminate].
    cbn [fold_left_opt] in Hrun.
    destruct (build_step st1 c) as [st2|] eqn:Hs; [|discriminate].
    injection Hrun as ->.
    rewrite (build_step_flushes st1 st c Hs Hk) in Hc. cbn [inner] in Hc.
    rewrite app_nil_r in Hc. exact Hc.
  - exact (proj1 (build_fold_heights controls builder_init st (Forall_nil _) eq_refl Hrun)).
Qed.

Lemma try_build_block_blocks_witness :
  try_build_block [Control.Str "a"; Control.LF; Control.NoBreakBegin; Control.Image "i" 2 3;
                   Control.NoBreakEnd]
  = Some [mkPageBlock [Control.Str "a"; Control.LF] 1; mkPageBlock [Control.Image "i" 2 3] 3;
          PageBlock_default]
  /\ (exists pending,
        concat (map inner [mkPageBlock [Control.Str "a"; Control.LF] 1;
                           mkPageBlock [Control.Image "i" 2 3] 3; PageBlock_default]) ++ pending
        = filter kept_in_block [Control.Str "a"; Control.LF; Control.NoBreakBegin;
                                Control.Image "i" 2 3; Control.NoBreakEnd])
  /\ (forall pre c, [Control.Str "a"; Control.LF; Control.NoBreakBegin; Control.Image "i" 2 3;
                     Control.NoBreakEnd] = pre ++ [c] ->
        match c with Control.Image _ _ _ | Control.NoBreakEnd => True | _ => False end ->
        concat (map inner [mkPageBlock [Control.Str "a"; Control.LF] 1;
                           mkPageBlock [Control.Image "i" 2 3] 3; PageBlock_default])
        = filter kept_in_block [Control.Str "a"; Control.LF; Control.NoBreakBegin;
                                Control.Image "i" 2 3; Control.NoBreakEnd])
  /\ Forall (fun b => height b = sumN (map control_height (inner b)))
       [mkPageBlock [Control.Str "a"; Control.LF] 1; mkPageBlock [Control.Image "i" 2 3] 3;
        PageBlock_default].
Proof.
  split; [reflexivity|]. apply try_build_block_blocks. reflexivity.
Defined.

(** *** The control pipeline *)

Lemma scan_ann_emits (text : string) (st : PipelineState) (b : bool)
    (a : RichAnnotation.t) (st' : PipelineState) (b' : bool) :
  scan_ann text (st, b) a = Some (st', b') ->
  exists body, cmds st' = cmds st ++ body /\ Forall emitted body.
Proof.
  intros H.
  destruct a; cbn [scan_ann] in H; unfold assert_empty, checked_mul in H;
    repeat match type of H with
    | context [if ?c then _ else _] => let E := fresh "E" in destruct c eqn:E
    | context [match ?x with _ => _ end] => let E := fresh "E" in destruct x eqn:E
    end;
    try discriminate H; injection H as <- <-;
    solve [ exists []; rewrite app_nil_r; split; [reflexivity | constructor]
          | eexists [_]; split; [reflexivity | constructor; [reflexivity | constructor]] ].
Qed.

Lemma scan_fold_emits (text : string) (anns : list RichAnnotation.t) :
  forall st b st' b',
  fold_left_opt (scan_ann text) anns (st, b) = Some (st', b') ->
  exists body, cmds st' = cmds st ++ body /\ Forall emitted body.
Proof.
  induction anns as [|a anns IH]; intros st b st' b' H; cbn [fold_left_opt] in H.
  - injection H as <- <-. exists []. rewrite app_nil_r. split; [reflexivity | constructor].
  - destruct (scan_ann text (st, b) a) as [[st1 b1]|] eqn:E; [|discriminate H].
    destruct (scan_ann_emits text st b a st1 b1 E) as (body1 & Hc1 & Hn1).
    destruct (IH st1 b1 st' b' H) as (body2 & Hc2 & Hn2).
    exists (body1 ++ body2). rewrite Hc2, Hc1, app_assoc. split; [reflexivity|].
    apply Forall_app. split; assumption.
Qed.

Lemma render_span_emits (map : FMap) (st : PipelineState) (ts : TaggedString)
    (st' : PipelineState) (m : bool) :
  render_span map st ts = Some (st', m) ->
  exists body, cmds st' = cmds st ++ body /\ Forall emitted body.
Proof.
  unfold render_span. intros H.
  destruct (fold_left_opt (scan_ann (s ts)) (tag ts) (st, false)) as [[st1 b1]|] eqn:E;
    [|discriminate H].
  destruct (scan_fold_emits (s ts) (tag ts) st false st1 b1 E) as (body & Hc & Hn).
  destruct b1.
  - injection H as <- <-. exists body. split; assumption.
  - destruct (vec_last (redacted_stack st1)) as [id|];
      injection H as <- <-;
      eexists (body ++ [_]); unfold push_cmd; cbn [cmds];
      rewrite Hc, app_assoc; (split; [reflexivity|]);
      apply Forall_app; (split; [exact Hn | constructor; [reflexivity | constructor]]).
Qed.

Lemma render_spans_emits (map : FMap) (spans : TaggedLine) :
  forall st b st' m,
  render_spans map st b spans = Some (st', m) ->
  exists body, cmds st' = cmds st ++ body /\ Forall emitted body.
Proof.
  induction spans as [|ts rest IH]; intros st b st' m H; cbn [render_spans] in H.
  - injection H as <- <-. exists []. rewrite app_nil_r. split; [reflexivity | constructor].
  - destruct (render_span map st ts) as [[st1 m1]|] eqn:E; [|discriminate H].
    destruct (render_span_emits map st ts st1 m1 E) as (body1 & Hc1 & Hn1).
    destruct m1.
    + injection H as <- <-. exists body1. split; assumption.
    + destruct (IH st1 false st' m H) as (body2 & Hc2 & Hn2).
      exists (body1 ++ body2). rewrite Hc2, Hc1, app_assoc. split; [reflexivity|].
      apply Forall_app. split; assumption.
Qed.

Lemma render_lines_fold_emits (map : FMap) (lines : list TaggedLine) :
  forall st st', fold_left_opt (render_line map) lines st = Some st' ->
  Forall emitted (cmds st) -> Forall emitted (cmds st').
Proof.
  induction lines as [|l lines IH]; intros st st' H Hst; cbn [fold_left_opt] in H.
  - injection H as <-. exact Hst.
  - destruct (render_line map st l) as [st1|] eqn:E; [|discriminate H].
    apply (IH st1 st' H). unfold render_line in E.
    destruct (render_spans map st false l) as [[st2 m]|] eqn:E2; [|discriminate E].
    destruct (render_spans_emits map l st false st2 m E2) as (body & Hc & Hn).
    assert (H2 : Forall emitted (cmds st2)) by (rewrite Hc; apply Forall_app; split; assumption).
    destruct m; cbn [negb] in E; injection E as <-; [exact H2|].
    unfold push_cmd. cbn [cmds]. apply Forall_app. split; [exact H2 | constructor; [reflexivity | constructor]].
Qed.

(** The commands [just_render] produces from a render tree's lines never
    hit an [unreachable!()] arm of [try_build_block]: feeding them to it
    fails only on misplaced no-break markers. *)
Theorem render_lines_then_build (map : FMap) (lines : list TaggedLine) (cs : list Control.t) :
  render_lines map lines = Some cs ->
  Forall emitted cs
  /\ (try_build_block cs <> None <-> sections_ok false cs = true).
Proof.
  unfold render_lines. intros H.
  destruct (fold_left_opt (render_line map) lines (mkPipelineState [] [])) as [st|] eqn:E;
    [|discriminate H].
  injection H as <-. split.
  - exact (render_lines_fold_emits map lines _ st E (Forall_nil _)).
  - unfold try_build_block. rewrite <- (build_fold_ok (cmds st) builder_init).
    destruct (fold_left_opt build_step (cmds st) builder_init); split; intros Hn;
      first [discriminate | contradiction Hn; reflexivity | exact Hn].
Qed.

Lemma render_lines_then_build_witness :
  render_lines plain_map [[mkTaggedString "a" []]; [mkTaggedString "" [RichAnnotation.NoBreakBegin]]]
    = Some [Control.Str "a"; Control.LF; Control.NoBreakBegin]
  /\ Forall emitted [Control.Str "a"; Control.LF; Control.NoBreakBegin]
  /\ (try_build_block [Control.Str "a"; Control.LF; Control.NoBreakBegin] <> None
      <-> sections_ok false [Control.Str "a"; Control.LF; Control.NoBreakBegin] = true).
Proof.
  split; [reflexivity|]. apply (render_lines_then_build plain_map
    [[mkTaggedString "a" []]; [mkTaggedString "" [RichAnnotation.NoBreakBegin]]]). reflexivity.
Defined.

Lemma render_line_lf (map : FMap) (st st' : PipelineState) (line : TaggedLine) :
  render_line map st line = Some st' ->
  exists body, cmds st' = cmds st ++ body
    /\ length (filter is_LF body) = (if existsb marker_span line then 0 else 1)%nat.
Proof.
  unfold render_line. intros H.
  destruct (render_spans map st false line) as [[st2 m]|] eqn:E; [|discriminate H].
  destruct (render_spans_spec map line st st2 m E) as [Hm (body & Hc & Hn)].
  assert (Hf : filter is_LF body = []).
  { clear -Hn. induction body as [|x body IHb]; [reflexivity|].
    destruct x; cbn [filter is_LF];
      first [ exfalso; apply Hn; left; reflexivity
            | apply IHb; intros Hin; apply Hn; right; exact Hin ]. }
  rewrite <- Hm. destruct m; cbn [negb] in H; injection H as <-.
  - exists body. rewrite Hf. split; [exact Hc | reflexivity].
  - exists (body ++ [Control.LF]). unfold push_cmd. cbn [cmds]. rewrite Hc, app_assoc.
    split; [reflexivity|]. rewrite filter_app, Hf. reflexivity.
Qed.

Lemma render_lines_fold_lf (map : FMap) (lines : list TaggedLine) :
  forall st0 st, fold_left_opt (render_line map) lines st0 = Some st ->
  length (filter is_LF (cmds st))
  = (length (filter is_LF (cmds st0)) + length (filter (fun l => negb (existsb marker_span l)) lines))%nat.
Proof.
  induction lines as [|l lines IH]; intros st0 st E; cbn [fold_left_opt] in E.
  - injection E as <-. cbn. lia.
  - destruct (render_line map st0 l) as [st1|] eqn:E1; [|discriminate E].
    destruct (render_line_lf map st0 st1 l E1) as (body & Hc & Hl).
    rewrite (IH st1 st E), Hc, filter_app, length_app, Hl.
    cbn [filter]. destruct (existsb marker_span l); cbn [negb length]; lia.
Qed.

(** [just_render] emits one line feed per line without a marker span, and
    no other line feed. *)
Theorem render_lines_count_LF (map : FMap) (lines : list TaggedLine) (cs : list Control.t) :
  render_lines map lines = Some cs ->
  length (filter is_LF cs) = length (filter (fun l => negb (existsb marker_span l)) lines).
Proof.
  unfold render_lines. intros H.
  destruct (fold_left_opt (render_line map) lines (mkPipelineState [] [])) as [st|] eqn:E;
    [|discriminate H].
  injection H as <-. exact (render_lines_fold_lf map lines _ st E).
Qed.

Lemma render_lines_count_LF_witness :
  render_lines plain_map [[mkTaggedString "a" []]; [mkTaggedString "" [RichAnnotation.NoBreakBegin]]]
    = Some [Control.Str "a"; Control.LF; Control.NoBreakBegin]
  /\ length (filter is_LF [Control.Str "a"; Control.LF; Control.NoBreakBegin])
     = length (filter (fun l => negb (existsb marker_span l))
                 [[mkTaggedString "a" []]; [mkTaggedString "" [RichAnnotation.NoBreakBegin]]]).
Proof.
  split; [reflexivity|]. apply (render_lines_count_LF plain_map). reflexivity.
Defined.

Lemma vec_last_snoc {A} (l : list A) (x : A) : vec_last (l ++ [x]) = Some x.
Proof. unfold vec_last. rewrite rev_app_distr. reflexivity. Qed.

(** A redacted section opened and closed with the same id leaves the
    state as it was: the [RedactedBegin] line pushes the id on the stack
    and emits nothing (not even a line feed), and the matching
    [RedactedEnd] line pops it, again emitting nothing. *)
Theorem redacted_round_trip (map : FMap) (st : PipelineState) (psk psk' : string) (id : Uuid) :
  render_line map st (marker_line (RichAnnotation.RedactedBegin psk id))
    = Some (mkPipelineState (cmds st) (redacted_stack st ++ [id]))
  /\ render_line map (mkPipelineState (cmds st) (redacted_stack st ++ [id]))
       (marker_line (RichAnnotation.RedactedEnd psk' id)) = Some st.
Proof.
  split.
  - reflexivity.
  - unfold render_line, marker_line. cbn [render_spans]. unfold render_span.
    cbn [fold_left_opt s tag scan_ann]. unfold assert_empty. cbn [String.eqb redacted_stack].
    rewrite vec_last_snoc, N.eqb_refl, removelast_last. destruct st. reflexivity.
Qed.

(** A [RedactedEnd] whose id is not the top of the stack (or with an
    empty stack) panics, whatever the span's text. *)
Theorem redacted_end_mismatch (map : FMap) (st : PipelineState) (text psk : string) (id : Uuid) :
  vec_last (redacted_stack st) <> Some id ->
  render_line map st [mkTaggedString text [RichAnnotation.RedactedEnd psk id]] = None.
Proof.
  intros Hne. unfold render_line. cbn [render_spans]. unfold render_span.
  cbn [fold_left_opt s tag scan_ann].
  unfold assert_empty. destruct (String.eqb text EmptyString); [|reflexivity]. cbv beta iota.
  destruct (vec_last (redacted_stack st)) as [top|]; [|reflexivity]. cbv beta iota.
  destruct (N.eqb_spec top id) as [->|]; [contradiction Hne; reflexivity | reflexivity].
Qed.

Lemma redacted_end_mismatch_witness :
  vec_last (redacted_stack (mkPipelineState [] [7])) <> Some 8
  /\ render_line plain_map (mkPipelineState [] [7])
       [mkTaggedString "" [RichAnnotation.RedactedEnd "k" 8]] = None.
Proof.
  split; [discriminate|]. apply redacted_end_mismatch. discriminate.
Defined.

(** A span without a marker annotation (an [Image] of area 0 included) is
    emitted as one [Str] of its styled string, or as a [StrRedacted] with
    the innermost open redacted id, and does not end the line. *)
Theorem text_span_emitted (map : FMap) (st : PipelineState) (ts : TaggedString) :
  marker_span ts = false ->
  render_span map st ts
  = Some (push_cmd st (match vec_last (redacted_stack st) with
                       | Some id => Control.StrRedacted (styled_string map ts) id
                       | None => Control.Str (styled_string map ts)
                       end), false).
Proof.
  intros H. unfold render_span. rewrite (scan_non_marker (s ts) (tag ts) st false H).
  cbv beta iota. destruct (vec_last (redacted_stack st)); reflexivity.
Qed.

Lemma text_span_emitted_witness :
  marker_span (mkTaggedString "x" [RichAnnotation.Image "i" 0 4; RichAnnotation.Strong]) = false
  /\ render_span plain_map (mkPipelineState [] [3])
       (mkTaggedString "x" [RichAnnotation.Image "i" 0 4; RichAnnotation.Strong])
     = Some (push_cmd (mkPipelineState [] [3])
               (match vec_last (redacted_stack (mkPipelineState [] [3])) with
                | Some id => Control.StrRedacted (styled_string plain_map
                               (mkTaggedString "x" [RichAnnotation.Image "i" 0 4; RichAnnotation.Strong])) id
                | None => Control.Str (styled_string plain_map
                               (mkTaggedString "x" [RichAnnotation.Image "i" 0 4; RichAnnotation.Strong]))
                end), false).
Proof.
  split; [reflexivity|]. apply text_span_emitted. reflexivity.
Defined.

Lemma string_app_assoc (a b c : string) : (a ++ (b ++ c) = (a ++ b) ++ c)%string.
Proof. induction a as [|x a IH]; cbn; [reflexivity | rewrite IH; reflexivity]. Qed.

Lemma string_app_nil_r (a : string) : (a ++ EmptyString = a)%string.
Proof. induction a as [|x a IH]; cbn; [reflexivity | rewrite IH; reflexivity]. Qed.

Lemma concat_strings_cons (x : string) (l : list string) :
  concat_strings (x :: l) = (x ++ concat_strings l)%string.
Proof. reflexivity. Qed.

Lemma style_fold (map : FMap) (text : string) (anns : list RichAnnotation.t) :
  forall a b c m,
  fold_left (style_ann map text) anns (a, b, c, m)
  = ((a ++ concat_strings (List.map (fun x => fst (fst (map x))) anns))%string,
     (b ++ concat_strings (List.map (fun x => snd (map x)) anns))%string,
     (c ++ concat_strings (List.map (fun x => snd (fst (map x)) text) anns))%string,
     match anns with [] => m | _ => true end).
Proof.
  induction anns as [|x anns IH]; intros a b c m.
  - cbn. rewrite !string_app_nil_r. reflexivity.
  - cbn [fold_left List.map]. unfold style_ann at 2.
    destruct (map x) as [[s0 mut] f] eqn:Hx. rewrite IH. cbn [fst snd].
    rewrite !concat_strings_cons, <- !string_app_assoc. destruct anns; reflexivity.
Qed.

(** The string a text span is emitted with: for a span with annotations,
    the prefixes of all its annotations, then the transformed text once per
    annotation, then all their suffixes; for a span without annotations,
    its text. *)
Theorem styled_string_shape (map : FMap) (ts : TaggedString) :
  styled_string map ts
  = match tag ts with
    | [] => s ts
    | anns => (concat_strings (List.map (fun a => fst (fst (map a))) anns)
               ++ concat_strings (List.map (fun a => snd (fst (map a)) (s ts)) anns)
               ++ concat_strings (List.map (fun a => snd (map a)) anns))%string
    end.
Proof.
  unfold styled_string. rewrite style_fold. destruct (tag ts) as [|a anns]; [cbn; apply string_app_nil_r | reflexivity].
Qed.

Lemma concat_strings_map_id (map : FMap) (text : string) (anns : list RichAnnotation.t) :
  (forall a x, snd (fst (map a)) x = x) ->
  concat_strings (List.map (fun a => snd (fst (map a)) text) anns)
  = concat_strings (repeat text (length anns)).
Proof.
  intros Hid. induction anns as [|a anns IH]; [reflexivity|].
  cbn [List.map repeat length]. rewrite !concat_strings_cons, Hid, IH. reflexivity.
Qed.

(** Under a styling map whose transforms leave the text unchanged, a text
    span with [k >= 1] annotations is emitted with its text [k] times in a
    row, between the prefixes and the suffixes. *)
Theorem identity_map_repeats_text (map : FMap) (ts : TaggedString) :
  (forall a x, snd (fst (map a)) x = x) -> tag ts <> [] ->
  styled_string map ts
  = (concat_strings (List.map (fun a => fst (fst (map a))) (tag ts))
     ++ concat_strings (repeat (s ts) (length (tag ts)))
     ++ concat_strings (List.map (fun a => snd (map a)) (tag ts)))%string.
Proof.
  intros Hid Hne. unfold styled_string. rewrite style_fold, concat_strings_map_id by exact Hid.
  destruct (tag ts) as [|a anns]; [contradiction Hne; reflexivity | reflexivity].
Qed.

Lemma identity_map_repeats_text_witness :
  (forall a x, snd (fst (plain_map a)) x = x)
  /\ tag (mkTaggedString "ab" [RichAnnotation.Strong; RichAnnotation.Code]) <> []
  /\ styled_string plain_map (mkTaggedString "ab" [RichAnnotation.Strong; RichAnnotation.Code])
     = (concat_strings (List.map (fun a => fst (fst (plain_map a)))
                          (tag (mkTaggedString "ab" [RichAnnotation.Strong; RichAnnotation.Code])))
        ++ concat_strings (repeat (s (mkTaggedString "ab" [RichAnnotation.Strong; RichAnnotation.Code]))
                             (length (tag (mkTaggedString "ab" [RichAnnotation.Strong; RichAnnotation.Code]))))
        ++ concat_strings (List.map (fun a => snd (plain_map a))
                             (tag (mkTaggedString "ab" [RichAnnotation.Strong; RichAnnotation.Code]))))%string.
Proof.
  assert (H : forall a x, snd (fst (plain_map a)) x = x) by (intros; reflexivity).
  split; [exact H|]. split; [discriminate|].
  apply identity_map_repeats_text; [exact H | discriminate].
Defined.

(** *** Cells from markup *)

Lemma colspan_fold_other (attrs : list (string * string)) (acc : N) :
  (forall a, In a attrs -> fst a <> "colspan"%string) ->
  fold_left
    (fun colspan attr =>
       if String.eqb (fst attr) "colspan" then
         match usize_from_str (snd attr) with Some v => v | None => 1 end
       else colspan)
    attrs acc = acc.
Proof.
  revert acc. induction attrs as [|a attrs IH]; intros acc H; [reflexivity|].
  cbn [fold_left]. destruct (String.eqb_spec (fst a) "colspan") as [E|_].
  - exfalso. apply (H a); [left; reflexivity | exact E].
  - apply IH. intros b Hb. apply H. right. exact Hb.
Qed.

(** A [<td>] without a [colspan] attribute gets colspan 1. *)
Theorem td_colspan_default (attrs : list (string * string)) (children : list RenderNode) :
  (forall a, In a attrs -> fst a <> "colspan"%string) ->
  cell_colspan (td_to_render_tree attrs children) = 1.
Proof. intros H. unfold td_to_render_tree. cbn [cell_colspan]. apply colspan_fold_other. exact H. Qed.

Lemma td_colspan_default_witness :
  (forall a, In a [("class", "x")%string] -> fst a <> "colspan"%string)
  /\ cell_colspan (td_to_render_tree [("class", "x")%string] [Text "x"]) = 1.
Proof.
  assert (H : forall a, In a [("class", "x")%string] -> fst a <> "colspan"%string)
    by (intros a [<-|[]]; discriminate).
  split; [exact H|]. apply td_colspan_default. exact H.
Defined.

(** Of several [colspan] attributes the last one decides: its value parsed
    as a [usize], or 1 when it does not parse. *)
Theorem td_colspan_last (pre post : list (string * string)) (v : string) (children : list RenderNode) :
  (forall a, In a post -> fst a <> "colspan"%string) ->
  cell_colspan (td_to_render_tree (pre ++ [("colspan"%string, v)] ++ post) children)
  = match usize_from_str v with Some n => n | None => 1 end.
Proof.
  intros H. unfold td_to_render_tree. cbn [cell_colspan].
  rewrite !fold_left_app. cbn [fold_left fst snd String.eqb Ascii.eqb Bool.eqb andb].
  apply colspan_fold_other. exact H.
Qed.

Lemma td_colspan_last_witness :
  (forall a, In a [("rowspan", "2")%string] -> fst a <> "colspan"%string)
  /\ cell_colspan (td_to_render_tree ([("colspan", "3")%string] ++ [("colspan"%string, "x"%string)]
                                      ++ [("rowspan", "2")%string]) [Text "x"])
     = match usize_from_str "x" with Some n => n | None => 1 end.
Proof.
  assert (H : forall a, In a [("rowspan", "2")%string] -> fst a <> "colspan"%string)
    by (intros a [<-|[]]; discriminate).
  split; [exact H|]. apply td_colspan_last. exact H.
Defined.

Lemma parse_digits_bound (digits : string) :
  forall acc n, acc <= usize_max -> parse_digits acc digits = Some n -> n <= usize_max.
Proof.
  induction digits as [|c rest IH]; intros acc n Hacc H; cbn [parse_digits] in H.
  - injection H as <-. exact Hacc.
  - destruct (to_digit c) as [x|]; [|discriminate]. cbv beta iota in H.
    destruct (checked_mul acc 10) as [m|]; [|discriminate]. cbv beta iota in H.
    destruct (N.leb_spec (m + x) usize_max); [|discriminate].
    exact (IH (m + x) n H0 H).
Qed.

(** [usize::from_str] never yields a value above [usize::MAX], and rejects
    the empty string and every string starting with [-]. *)
Theorem usize_from_str_bounds (src : string) :
  (forall n, usize_from_str src = Some n -> n <= usize_max)
  /\ usize_from_str EmptyString = None
  /\ usize_from_str (String "-" src) = None.
Proof.
  split; [|split; [reflexivity|]].
  - intros n. assert (H0 : 0 <= usize_max) by (unfold usize_max; lia).
    unfold usize_from_str. destruct src as [|c rest]; [discriminate|].
    destruct (Ascii.eqb c "+" || Ascii.eqb c "-")%char.
    + destruct rest as [|c' rest']; [discriminate|].
      destruct (Ascii.eqb c "+")%char; apply (parse_digits_bound _ 0 n H0).
    + apply (parse_digits_bound _ 0 n H0).
  - destruct src; reflexivity.
Qed.

Lemma digit_char (d : N) : d < 10 ->
  to_digit (Ascii.ascii_of_N (48 + d)) = Some d
  /\ Ascii.eqb (Ascii.ascii_of_N (48 + d)) "+"%char = false
  /\ Ascii.eqb (Ascii.ascii_of_N (48 + d)) "-"%char = false.
Proof.
  intros Hd.
  assert (Hc : d = 0 \/ d = 1 \/ d = 2 \/ d = 3 \/ d = 4 \/ d = 5 \/ d = 6 \/ d = 7 \/ d = 8 \/ d = 9)
    by lia.
  repeat destruct Hc as [->|Hc]; [..|subst d]; split; try split; reflexivity.
Qed.

Lemma fold_digits_ge (ds : list N) (acc : N) : acc <= fold_left (fun a d => a * 10 + d) ds acc.
Proof.
  revert acc. induction ds as [|d ds IH]; intros acc; cbn [fold_left]; [lia|].
  specialize (IH (acc * 10 + d)). lia.
Qed.

Lemma parse_digits_string (ds : list N) :
  forall acc, Forall (fun d => d < 10) ds ->
  fold_left (fun a d => a * 10 + d) ds acc <= usize_max ->
  parse_digits acc (digits_string ds) = Some (fold_left (fun a d => a * 10 + d) ds acc).
Proof.
  induction ds as [|d ds IH]; intros acc Hds Hmax; [reflexivity|].
  inversion Hds as [|? ? Hd Hds']; subst.
  cbn [digits_string fold_right parse_digits]. cbn [fold_left] in Hmax |- *.
  destruct (digit_char d Hd) as (-> & _ & _). cbv beta iota.
  pose proof (fold_digits_ge ds (acc * 10 + d)) as Hge.
  unfold checked_mul. destruct (N.leb_spec (acc * 10) usize_max); [|lia]. cbv beta iota.
  destruct (N.leb_spec (acc * 10 + d) usize_max); [|lia].
  apply IH; assumption.
Qed.

(** [usize::from_str] accepts every non-empty string of decimal digits
    whose value fits in a [usize], with or without a leading [+] and
    leading zeros allowed, and returns that value. *)
Theorem usize_from_str_digits (ds : list N) :
  ds <> [] -> Forall (fun d => d < 10) ds -> digits_value ds <= usize_max ->
  usize_from_str (digits_string ds) = Some (digits_value ds)
  /\ usize_from_str (String "+" (digits_string ds)) = Some (digits_value ds).
Proof.
  intros Hne Hds Hmax. unfold digits_value in *.
  destruct ds as [|d ds']; [contradiction Hne; reflexivity|].
  inversion Hds as [|? ? Hd _]; subst.
  destruct (digit_char d Hd) as (_ & Hp & Hm).
  split.
  - unfold usize_from_str. cbn [digits_string fold_right].
    rewrite Hp, Hm. cbn [orb].
    exact (parse_digits_string (d :: ds') 0 Hds Hmax).
  - unfold usize_from_str. cbn [Ascii.eqb orb Bool.eqb andb].
    exact (parse_digits_string (d :: ds') 0 Hds Hmax).
Qed.

Lemma usize_from_str_digits_witness :
  [0; 4; 2] <> [] /\ Forall (fun d => d < 10) [0; 4; 2] /\ digits_value [0; 4; 2] <= usize_max
  /\ usize_from_str (digits_string [0; 4; 2]) = Some (digits_value [0; 4; 2])
  /\ usize_from_str (String "+" (digits_string [0; 4; 2])) = Some (digits_value [0; 4; 2]).
Proof.
  assert (H : Forall (fun d => d < 10) [0; 4; 2]) by (repeat constructor; lia).
  assert (Hm : digits_value [0; 4; 2] <= usize_max) by (vm_compute; discriminate).
  split; [discriminate|]. split; [exact H|]. split; [exact Hm|].
  apply usize_from_str_digits; [discriminate | exact H | exact Hm].
Defined.

(** *** The example's [StringReader] *)

Lemma read_loop_spec (k : nat) :
  forall pre rest iter, length rest = k ->
  read_loop (length pre) k iter (pre ++ rest)
  = (skipn (Nat.min k (length iter)) iter,
     pre ++ firstn (Nat.min k (length iter)) iter ++ skipn (Nat.min k (length iter)) rest,
     (length pre + Nat.min k (length iter))%nat).
Proof.
  induction k as [|k IH]; intros pre rest iter Hlen.
  - cbn [read_loop Nat.min]. destruct rest; [|discriminate]. cbn. rewrite Nat.add_0_r. reflexivity.
  - destruct iter as [|x iter].
    + cbn. rewrite Nat.add_0_r. reflexivity.
    + destruct rest as [|r0 rest]; [discriminate|]. cbn [length] in Hlen.
      cbn [read_loop].
      assert (Hset : firstn (length pre) (pre ++ r0 :: rest) ++ x :: skipn (S (length pre)) (pre ++ r0 :: rest)
                     = (pre ++ [x]) ++ rest).
      { rewrite firstn_app, Nat.sub_diag, firstn_all. cbn [firstn]. rewrite app_nil_r.
        rewrite skipn_app, skipn_all2 by lia. replace (S (length pre) - length pre)%nat with 1%nat by lia.
        cbn [skipn app]. rewrite <- app_assoc. reflexivity. }
      rewrite Hset.
      replace (S (length pre)) with (length (pre ++ [x])) by (rewrite length_app; cbn; lia).
      rewrite (IH (pre ++ [x]) rest iter) by lia.
      cbn [length Nat.min firstn skipn]. rewrite length_app. cbn [length].
      rewrite <- app_assoc. f_equal. lia.
Qed.

(** [StringReader::read] copies the next [min(buf.len(), remaining)]
    bytes to the front of [buf], leaves the rest of [buf] unchanged,
    consumes exactly those bytes and returns their count: it returns 0 only
    for an empty buffer or at the end of the data. *)
Theorem StringReader_read_spec (iter buf : list Byte.byte) :
  StringReader_read iter buf
  = (skipn (Nat.min (length buf) (length iter)) iter,
     firstn (Nat.min (length buf) (length iter)) iter ++ skipn (Nat.min (length buf) (length iter)) buf,
     Nat.min (length buf) (length iter)).
Proof.
  unfold StringReader_read. exact (read_loop_spec (length buf) [] buf iter eq_refl).
Qed.

Lemma read_all_spec (k : nat) (Hk : (0 < k)%nat) (fuel : nat) :
  forall iter, (length iter < fuel)%nat -> read_all fuel k iter = iter.
Proof.
  induction fuel as [|fuel IH]; intros iter Hf; [lia|].
  cbn [read_all]. rewrite StringReader_read_spec, repeat_length.
  destruct iter as [|x rest].
  - cbn. rewrite Nat.min_0_r. reflexivity.
  - set (n := Nat.min k (length (x :: rest))).
    assert (Hn : (1 <= n)%nat) by (unfold n; cbn [length]; lia).
    destruct n as [|n'] eqn:En; [lia|]. rewrite <- En.
    rewrite firstn_app, firstn_firstn, Nat.min_id.
    assert (Hl : length (firstn n (x :: rest)) = n) by (rewrite length_firstn; unfold n in *; lia).
    rewrite Hl, Nat.sub_diag, firstn_O, app_nil_r.
    rewrite IH by (rewrite length_skipn; cbn [length] in *; lia).
    apply firstn_skipn.
Qed.

(** Draining a [StringReader::new(data)] with [read] into a buffer of any
    size [k >= 1] until [read] returns 0 yields exactly the bytes of
    [data]. *)
Theorem StringReader_round_trip (data : string) (k : nat) :
  (0 < k)%nat ->
  string_of_list_byte (read_all (S (length (StringReader_new data))) k (StringReader_new data)) = data.
Proof.
  intros Hk. rewrite (read_all_spec k Hk) by lia.
  unfold StringReader_new. apply string_of_list_byte_of_string.
Qed.

Lemma StringReader_round_trip_witness :
  (0 < 2)%nat
  /\ string_of_list_byte (read_all (S (length (StringReader_new "<p>hi</p>")))
                            2 (StringReader_new "<p>hi</p>")) = "<p>hi</p>"%string.
Proof. split; [lia | apply StringReader_round_trip; lia]. Defined.
